(** * Catalogue scraper: a shallow embedding of [catalogue_scraper.py]

    The development follows the source file top to bottom: Python strings
    and the string helpers the scraper calls, the [pages] table of
    [scraped_data.db], the program monad (state, exceptions, printed
    lines), the [tenacity] retry decorator, and then every function of the
    module under its own name. *)

From Stdlib Require Import NArith List Ascii String Lia.
From stdpp Require Import base list gmap.
From Equations Require Import Equations.
Import ListNotations.

Local Open Scope N_scope.
Local Open Scope nat_scope.

(** ** Python strings

    A Python [str] is a sequence of code points; lone surrogates
    (U+D800..U+DFFF) are legal members of a [str] although they have no
    UTF-8 encoding. *)

Module PyStr.

Abbreviation pystr := (list N).

(** ASCII literals of the source, as code point sequences. *)
Definition py (s : string) : pystr :=
  map N_of_ascii (list_ascii_of_string s).

Definition comma : N := 44%N.

(** [str.isspace] for one code point: the set CPython's
    [_PyUnicode_IsWhitespace] accepts, which is what [str.strip()]
    without argument removes. *)
Definition isspace (c : N) : bool :=
  ((9 <=? c) && (c <=? 13) || (28 <=? c) && (c <=? 32)
   || (c =? 133) || (c =? 160) || (c =? 5760)
   || (8192 <=? c) && (c <=? 8202)
   || (c =? 8232) || (c =? 8233) || (c =? 8239) || (c =? 8287)
   || (c =? 12288))%N.

Definition in_chars (chars : pystr) (c : N) : bool :=
  existsb (N.eqb c) chars.

Fixpoint lstrip_by (p : N -> bool) (s : pystr) : pystr :=
  match s with
  | [] => []
  | c :: t => if p c then lstrip_by p t else s
  end.

Definition rstrip_by (p : N -> bool) (s : pystr) : pystr :=
  rev (lstrip_by p (rev s)).

(** CPython's [do_strip]: advance from the left while the character is
    in the set, then retreat from the right. *)
Definition strip_by (p : N -> bool) (s : pystr) : pystr :=
  rstrip_by p (lstrip_by p s).

(** [s.strip()] *)
Definition strip (s : pystr) : pystr := strip_by isspace s.

(** [s.strip(chars)] *)
Definition strip_chars (chars s : pystr) : pystr :=
  strip_by (in_chars chars) s.

Fixpoint startswith (s pre : pystr) : bool :=
  match pre, s with
  | [], _ => true
  | _ :: _, [] => false
  | a :: pre', b :: s' => (a =? b)%N && startswith s' pre'
  end.

(** [s.endswith(suf)] *)
Definition endswith (s suf : pystr) : bool :=
  startswith (rev s) (rev suf).

(** [sep.join(xs)] *)
Fixpoint join (sep : pystr) (xs : list pystr) : pystr :=
  match xs with
  | [] => []
  | [x] => x
  | x :: rest => x ++ sep ++ join sep rest
  end.

(** Truthiness of a [str]: non-empty. *)
Definition truthy (s : pystr) : bool :=
  match s with [] => false | _ :: _ => true end.

(** Code points UTF-8 can encode: everything but the surrogates. *)
Definition encodable (c : N) : bool :=
  negb ((55296 <=? c) && (c <=? 57343))%N.

(** [s.encode("utf-8", "ignore").decode("utf-8")]: the encoder skips what
    it cannot encode, the decoder reads back exactly what was encoded. *)
Definition sanitize (s : pystr) : pystr := List.filter encodable s.

(** Text with a UTF-8 encoding: no lone surrogate in it. *)
Definition valid_text (s : pystr) : bool := forallb encodable s.

End PyStr.
Import PyStr.

(** ** [strip_it] *)

Definition inspect {A} (a : A) : {b : A | a = b} := exist _ a eq_refl.

Definition strip_it_cond (inp : pystr) : bool :=
  endswith (strip inp) [comma].

Definition strip_it_body (inp : pystr) : pystr :=
  strip_chars [comma] (strip inp).

Lemma lstrip_by_length p s : length (lstrip_by p s) <= length s.
Proof.
  induction s as [|c t IH]; simpl; [lia|].
  destruct (p c); simpl; lia.
Qed.

Lemma rstrip_by_length p s : length (rstrip_by p s) <= length s.
Proof.
  unfold rstrip_by. rewrite length_rev.
  etransitivity; [apply lstrip_by_length|]. rewrite length_rev. lia.
Qed.

Lemma strip_by_length p s : length (strip_by p s) <= length s.
Proof.
  unfold strip_by. etransitivity; [apply rstrip_by_length|apply lstrip_by_length].
Qed.

Lemma endswith_single s c :
  endswith s [c] = true <-> exists s', s = s' ++ [c].
Proof.
  unfold endswith. simpl. split.
  - intros He. destruct (rev s) as [|d t] eqn:Hr; simpl in He; [discriminate|].
    apply andb_prop in He as [He _]. apply N.eqb_eq in He. subst d.
    exists (rev t). rewrite <- (rev_involutive s), Hr. reflexivity.
  - intros [s' ->]. rewrite rev_app_distr. simpl.
    rewrite N.eqb_refl. destruct (rev s'); reflexivity.
Qed.

(** A string that ends with a character of the set loses it to [rstrip]. *)
Lemma rstrip_by_shrinks p s c :
  endswith s [c] = true -> p c = true -> length (rstrip_by p s) < length s.
Proof.
  intros He Hp. apply endswith_single in He as [s' ->].
  unfold rstrip_by. rewrite rev_app_distr. simpl. rewrite Hp.
  rewrite length_rev, length_app. simpl.
  pose proof (lstrip_by_length p (rev s')) as H. rewrite length_rev in H. lia.
Qed.

Lemma lstrip_by_keeps_end p s c :
  endswith s [c] = true ->
  lstrip_by p s = [] \/ endswith (lstrip_by p s) [c] = true.
Proof.
  intros He. apply endswith_single in He as [s' ->].
  induction s' as [|d t IH]; simpl.
  - destruct (p c); [left; reflexivity|].
    right. apply endswith_single. exists []. reflexivity.
  - destruct (p d); [exact IH|].
    right. apply endswith_single. exists (d :: t). reflexivity.
Qed.

Lemma strip_it_body_shrinks inp :
  strip_it_cond inp = true -> length (strip_it_body inp) < length inp.
Proof.
  unfold strip_it_cond, strip_it_body, strip_chars. intros He.
  pose proof (strip_by_length isspace inp) as Hs.
  fold (strip inp) in Hs.
  assert (Hc : in_chars [comma] comma = true) by reflexivity.
  unfold strip_by at 1.
  destruct (lstrip_by_keeps_end (in_chars [comma]) _ _ He) as [Hn|Hk].
  - rewrite Hn. unfold rstrip_by. simpl.
    destruct (strip inp) as [|x r] eqn:Hx; [discriminate|]. simpl in *. lia.
  - pose proof (rstrip_by_shrinks _ _ _ Hk Hc).
    pose proof (lstrip_by_length (in_chars [comma]) (strip inp)). lia.
Qed.

(** The [while] loop of [strip_it]; the recursion is on the length of
    [inp], which every iteration shortens. *)
Equations? strip_it (inp : pystr) : pystr by wf (length inp) lt :=
  strip_it inp with inspect (strip_it_cond inp) => {
    | exist _ true Hc => strip_it (strip_it_body inp);
    | exist _ false _ => inp }.
Proof. apply strip_it_body_shrinks. exact Hc. Qed.

(** The same loop with an explicit budget of iterations, returning how
    many iterations ran. [None]: the budget ran out. *)
Fixpoint strip_it_loop (fuel : nat) (inp : pystr) : option (pystr * nat) :=
  match fuel with
  | O => None
  | S f =>
      if strip_it_cond inp
      then match strip_it_loop f (strip_it_body inp) with
           | Some (r, n) => Some (r, S n)
           | None => None
           end
      else Some (inp, O)
  end.

Example strip_it_spec_example : strip_it (py "X, Y, , ") = py "X, Y".
Proof. reflexivity. Qed.

Example strip_it_leading : strip_it (py ", A, ") = py " A".
Proof. reflexivity. Qed.

(** ** Exceptions and printed lines *)

(** The subclasses of [Exception] the module can meet. *)
Inductive exn : Type :=
| ConnectionError      (* curl_cffi.requests.exceptions *)
| HTTPError            (* curl_cffi.requests.exceptions *)
| IntegrityError       (* aiosqlite: UNIQUE constraint failed *)
| UnicodeEncodeError   (* a str with a lone surrogate bound as a parameter *)
| RetryError           (* tenacity: attempts exhausted *)
| OtherException.      (* any other subclass of Exception *)

#[global] Instance exn_eq_dec : EqDecision exn.
Proof. solve_decision. Defined.

(** One constructor per [print] call of the source. *)
Inductive Message : Type :=
| SkippingDuplicateEntry (url : pystr)
| ErrorFetching (url : pystr) (e : exn)
| ErrorExtractingLinks (e : exn)
| SkippingAlreadyProcessed (link : pystr)
| ErrorParsing (link : pystr) (e : exn)
| DataExported
| FetchingSitemaps
| ExtractingLinks
| FoundLinks (n : nat)
| Completed (n : nat).

(** ** The [pages] table of [scraped_data.db] *)

Module Pages.

Record Row : Type := mkRow {
  id : N;                   (* INTEGER PRIMARY KEY AUTOINCREMENT *)
  url : pystr;              (* TEXT UNIQUE *)
  part_no : pystr;
  adaptable_for : pystr;
  orig_part_no : pystr
}.

Definition urls (t : list Row) : list pystr := map url t.

Definition next_id (t : list Row) : N :=
  N.succ (fold_right N.max 0%N (map id t)).

(** What [SELECT url, part_no, adaptable_for, orig_part_no] returns for
    one row. *)
Definition columns (r : Row) : list pystr :=
  [url r; part_no r; adaptable_for r; orig_part_no r].

(** The sqlite3 driver encodes every bound [str] as UTF-8 and raises
    [UnicodeEncodeError] on a lone surrogate. *)
Definition bindable (params : list pystr) : bool := forallb valid_text params.

(** [INSERT INTO pages (url, part_no, adaptable_for, orig_part_no)
    VALUES (?, ?, ?, ?)] followed by [commit]: one transaction. *)
Definition insert (params : pystr * pystr * pystr * pystr) (t : list Row)
  : exn + list Row :=
  let '(u, p, a, o) := params in
  if negb (bindable [u; p; a; o]) then inl UnicodeEncodeError
  else if decide (u ∈ urls t) then inl IntegrityError
  else inr (t ++ [mkRow (next_id t) u p a o]).

End Pages.

(** [init_db]: [CREATE TABLE IF NOT EXISTS] keeps an existing table and
    makes an empty one otherwise. [None] is a database file without the
    table. *)
Definition init_db (file : option (list Pages.Row)) : list Pages.Row :=
  match file with
  | Some t => t
  | None => []
  end.

(** ** Program state and the program monad *)

Record World : Type := mkWorld {
  pages : list Pages.Row;       (* scraped_data.db *)
  stdout : list Message;        (* what was printed, oldest first *)
  requests : list pystr;        (* every GET the session issued *)
  sleeps : list N;              (* every wait between retry attempts *)
  csv_file : option pystr       (* scraped_data.csv *)
}.

Definition set_pages (t : list Pages.Row) (w : World) : World :=
  mkWorld t (stdout w) (requests w) (sleeps w) (csv_file w).
Definition add_stdout (m : Message) (w : World) : World :=
  mkWorld (pages w) (stdout w ++ [m]) (requests w) (sleeps w) (csv_file w).
Definition add_request (u : pystr) (w : World) : World :=
  mkWorld (pages w) (stdout w) (requests w ++ [u]) (sleeps w) (csv_file w).
Definition add_sleep (d : N) (w : World) : World :=
  mkWorld (pages w) (stdout w) (requests w) (sleeps w ++ [d]) (csv_file w).
Definition set_csv_file (f : pystr) (w : World) : World :=
  mkWorld (pages w) (stdout w) (requests w) (sleeps w) (Some f).

Definition M (A : Type) : Type := World -> (exn + A) * World.

Definition ret {A} (a : A) : M A := fun w => (inr a, w).
Definition raise {A} (e : exn) : M A := fun w => (inl e, w).
Definition bind {A B} (m : M A) (k : A -> M B) : M B :=
  fun w => match m w with
           | (inr a, w') => k a w'
           | (inl e, w') => (inl e, w')
           end.
(** [try: m except Exception as e: h e] *)
Definition try_except {A} (m : M A) (h : exn -> M A) : M A :=
  fun w => match m w with
           | (inr a, w') => (inr a, w')
           | (inl e, w') => h e w'
           end.
Definition lift {A} (r : exn + A) : M A := fun w => (r, w).
Definition print (m : Message) : M unit := fun w => (inr tt, add_stdout m w).

Declare Scope prog_scope.
Delimit Scope prog_scope with prog.
Notation "x <- m ;; k" := (bind m (fun x => k))
  (at level 62, m at next level, right associativity) : prog_scope.
Notation "m ;;; k" := (bind m (fun _ => k))
  (at level 62, right associativity) : prog_scope.
Local Open Scope prog_scope.

(** [asyncio.gather] under a serial schedule: the tasks run one after the
    other in submission order and the results come back in that order; a
    task that raises ends the batch with its exception. *)
Fixpoint gather {A} (tasks : list (M A)) : M (list A) :=
  match tasks with
  | [] => ret []
  | t :: rest => r <- t ;; rs <- gather rest ;; ret (r :: rs)
  end.

(** ** [tenacity.retry] *)

Definition retry_if_exception_type (kinds : list exn) (e : exn) : bool :=
  bool_decide (e ∈ kinds).

(** [more]: attempts still allowed after the current one. An exception of
    a retried kind on the last attempt becomes [RetryError]; any other
    exception leaves at once. *)
Fixpoint retry_call {A} (retry_if : exn -> bool) (wait_fixed : N)
    (more : nat) (body : M A) : M A :=
  fun w =>
    match body w with
    | (inr a, w') => (inr a, w')
    | (inl e, w') =>
        if retry_if e then
          match more with
          | O => (inl RetryError, w')
          | S k => retry_call retry_if wait_fixed k body (add_sleep wait_fixed w')
          end
        else (inl e, w')
    end.

Definition retry {A} (retry_if : exn -> bool) (stop_after_attempt : nat)
    (wait_fixed : N) (body : M A) : M A :=
  retry_call retry_if wait_fixed (stop_after_attempt - 1) body.

(** ** The functions of the module *)

Definition get_existing_urls : M (gset pystr) :=
  fun w => (inr (list_to_set (Pages.urls (pages w))), w).

(** The parameter tuple [save_to_sqlite] binds to its INSERT statement. *)
Definition save_to_sqlite_params (url part_no adaptable_for orig_part_no : pystr)
  : pystr * pystr * pystr * pystr :=
  let part_no := sanitize part_no in
  let adaptable_for := sanitize adaptable_for in
  let orig_part_no := sanitize orig_part_no in
  (url, part_no, adaptable_for, orig_part_no).

Definition conn_execute_insert (params : pystr * pystr * pystr * pystr) : M unit :=
  fun w => match Pages.insert params (pages w) with
           | inr t => (inr tt, set_pages t w)
           | inl e => (inl e, w)
           end.

(** The undecorated body of [save_to_sqlite]. *)
Definition save_to_sqlite_body (url part_no adaptable_for orig_part_no : pystr)
  : M unit :=
  try_except
    (conn_execute_insert
       (save_to_sqlite_params url part_no adaptable_for orig_part_no))
    (fun e => match e with
              | IntegrityError => print (SkippingDuplicateEntry url)
              | _ => raise e
              end).

Definition save_to_sqlite (url part_no adaptable_for orig_part_no : pystr)
  : M unit :=
  retry (retry_if_exception_type [ConnectionError; HTTPError]) 5 1%N
    (save_to_sqlite_body url part_no adaptable_for orig_part_no).

(** What the article page selectors return: the text after the "Part-no."
    cell ([.get('')], so empty when absent) and, per compatibility row, the
    text of its first and second cell (again [.get('')]). *)
Record ArticlePage : Type := mkArticlePage {
  part_no_text : pystr;
  att_val_rows : list (pystr * pystr)
}.

Section Scraper.

(** The remote site: what [session.get(url)] gives, [response.text] or
    the exception raised. *)
Variable server : pystr -> exn + pystr.

(** [Selector(text=page).css("loc::text").getall()] *)
Variable Selector_loc : pystr -> exn + list pystr.

(** [Selector(text=content, encoding="utf-8")] with the XPath and CSS
    queries of [fetch_contents]. *)
Variable Selector_article : pystr -> exn + ArticlePage.

Definition session_get (url : pystr) : M pystr :=
  fun w => (server url, add_request url w).

Definition fetch_url (url : pystr) : M (option pystr) :=
  try_except
    (text <- session_get url ;; ret (Some text))
    (fun e => print (ErrorFetching url e) ;;; ret None).

Definition extract_links (page : pystr) : M (list pystr) :=
  try_except
    (lift (Selector_loc page))
    (fun e => print (ErrorExtractingLinks e) ;;; ret []).

(** The three fields [fetch_contents] computes from a parsed page. *)
Definition extract_fields (doc : ArticlePage) : pystr * pystr * pystr :=
  let part_no := strip (part_no_text doc) in
  let adaptable_for_array := map (fun item => strip (fst item)) (att_val_rows doc) in
  let orig_part_no_array := map (fun item => strip (snd item)) (att_val_rows doc) in
  let adaptable_for := strip_it (join (py ", ") adaptable_for_array) in
  let orig_part_no := strip_it (join (py ", ") orig_part_no_array) in
  (part_no, adaptable_for, orig_part_no).

Definition fetch_contents (link : pystr) (existing_urls : gset pystr) : M unit :=
  if decide (link ∈ existing_urls) then
    print (SkippingAlreadyProcessed link)
  else
    try_except
      (content <- session_get link ;;
       doc <- lift (Selector_article content) ;;
       let '(part_no, adaptable_for, orig_part_no) := extract_fields doc in
       if truthy part_no || truthy adaptable_for || truthy orig_part_no
       then save_to_sqlite link part_no adaptable_for orig_part_no
       else ret tt)
      (fun e => print (ErrorParsing link e)).

Definition urls : list pystr :=
  [ py "https://www.industriehof.com/sitemap_xml/xml_ordner/en_sitemap_a.xml";
    py "https://www.industriehof.com/sitemap_xml/xml_ordner/en_sitemap_b.xml" ].

(** [[extract_links(page) for page in pages if page]]: [None] and the
    empty string are both falsy. *)
Definition truthy_pages (pages : list (option pystr)) : list pystr :=
  omap (fun page => match page with
                    | Some text => if truthy text then Some text else None
                    | None => None
                    end) pages.

(** The sitemap phases of [main] for a list of seeds: fetch, extract,
    flatten. *)
Definition sitemap_phase (seeds : list pystr) : M (list pystr) :=
  print FetchingSitemaps ;;;
  pages <- gather (map fetch_url seeds) ;;
  print ExtractingLinks ;;;
  sitemap_links <- gather (map extract_links (truthy_pages pages)) ;;
  ret (concat sitemap_links).

Definition link_phase (links : list pystr) (existing_urls : gset pystr)
  : M (list unit) :=
  gather (map (fun link => fetch_contents link existing_urls) links).

(** [main]. Its first statement, [init_db()], has already turned the
    database file into the table [pages] of the world it runs in. *)
Definition main : M unit :=
  existing_urls <- get_existing_urls ;;
  extracted_sitemap_links <- sitemap_phase urls ;;
  print (FoundLinks (length extracted_sitemap_links)) ;;;
  link_phase extracted_sitemap_links existing_urls ;;;
  print (Completed (length extracted_sitemap_links)).

End Scraper.

(** ** [csv.writer] with the default (excel) dialect, and [export_to_csv] *)

Module Csv.

Definition dquote : N := 34%N.
Definition CR : N := 13%N.
Definition LF : N := 10%N.

(** Characters that force quoting under QUOTE_MINIMAL: the delimiter,
    the quote character and the characters of the line terminator. *)
Definition special (c : N) : bool :=
  ((c =? comma) || (c =? dquote) || (c =? CR) || (c =? LF))%N.

(** [doublequote=True]: a quote character inside a field is written
    twice. *)
Definition escape (s : pystr) : pystr :=
  flat_map (fun c => if (c =? dquote)%N then [dquote; dquote] else [c]) s.

Definition write_field (s : pystr) : pystr :=
  let body := escape s in
  if existsb special s then dquote :: body ++ [dquote] else body.

(** [writer.writerow(fields)]; a row made of one empty field is written
    as a quoted empty field. *)
Definition writerow (fields : list pystr) : pystr :=
  match fields with
  | [[]] => [dquote; dquote]
  | _ => join [comma] (map write_field fields)
  end ++ [CR; LF].

Definition writerows (rows : list (list pystr)) : pystr :=
  concat (map writerow rows).

(** *** A reader for the format (RFC 4180)

    The source only writes; this reader states what "standard quoting"
    means: fields separated by commas, records ended by CR LF, a field
    that starts with a quote runs to the next lone quote, and a doubled
    quote inside it is one quote character. *)

Inductive mode : Type := Plain | Quoted | QuoteSeen | AfterCR.

Record reader : Type := mkReader {
  rmode : mode;
  cur : pystr;                      (* current field, last character first *)
  fields_rev : list pystr;          (* fields of the current record, last first *)
  rows_rev : list (list pystr)      (* finished records, last first *)
}.

Definition push (c : N) (m : mode) (r : reader) : reader :=
  mkReader m (c :: cur r) (fields_rev r) (rows_rev r).
Definition end_field (m : mode) (r : reader) : reader :=
  mkReader m [] (rev (cur r) :: fields_rev r) (rows_rev r).
Definition end_row (r : reader) : reader :=
  mkReader Plain [] [] (rev (fields_rev r) :: rows_rev r).

Definition step (r : reader) (c : N) : option reader :=
  match rmode r with
  | Plain =>
      if (c =? comma)%N then Some (end_field Plain r)
      else if (c =? CR)%N then Some (end_field AfterCR r)
      else if (c =? LF)%N then None
      else if (c =? dquote)%N then
        match cur r with
        | [] => Some (mkReader Quoted [] (fields_rev r) (rows_rev r))
        | _ :: _ => None
        end
      else Some (push c Plain r)
  | Quoted =>
      if (c =? dquote)%N
      then Some (mkReader QuoteSeen (cur r) (fields_rev r) (rows_rev r))
      else Some (push c Quoted r)
  | QuoteSeen =>
      if (c =? dquote)%N then Some (push c Quoted r)
      else if (c =? comma)%N then Some (end_field Plain r)
      else if (c =? CR)%N then Some (end_field AfterCR r)
      else None
  | AfterCR =>
      if (c =? LF)%N then Some (end_row r) else None
  end.

Fixpoint run (r : reader) (s : pystr) : option reader :=
  match s with
  | [] => Some r
  | c :: t => match step r c with
              | Some r' => run r' t
              | None => None
              end
  end.

Definition finish (r : reader) : option (list (list pystr)) :=
  match rmode r, cur r, fields_rev r with
  | Plain, [], [] => Some (rev (rows_rev r))
  | _, _, _ => None
  end.

Definition read (s : pystr) : option (list (list pystr)) :=
  match run (mkReader Plain [] [] []) s with
  | Some r => finish r
  | None => None
  end.

End Csv.

Definition csv_header : list pystr :=
  [py "url"; py "part_no"; py "adaptable_for"; py "orig_part_no"].

(** [cursor.fetchall()] after the SELECT of [export_to_csv]: the rows in
    table order. *)
Definition fetchall (t : list Pages.Row) : list (list pystr) :=
  map Pages.columns t.

Definition export_to_csv : M unit :=
  fun w =>
    let rows := fetchall (pages w) in
    let file := Csv.writerow csv_header ++ Csv.writerows rows in
    (inr tt, add_stdout DataExported (set_csv_file file w)).


Example export_spec_example :
  csv_file (snd (export_to_csv
    (mkWorld [Pages.mkRow 1 (py "http://x/1") (py "P1") (py "A, B") (py "O1, O2")]
             [] [] [] None)))
  = Some (py "url,part_no,adaptable_for,orig_part_no" ++ [Csv.CR; Csv.LF]
          ++ py "http://x/1,P1," ++ [Csv.dquote] ++ py "A, B" ++ [Csv.dquote; comma]
          ++ [Csv.dquote] ++ py "O1, O2" ++ [Csv.dquote] ++ [Csv.CR; Csv.LF]).
Proof. reflexivity. Qed.

Example read_spec_example :
  Csv.read (py "url,part_no,adaptable_for,orig_part_no" ++ [Csv.CR; Csv.LF]
          ++ py "http://x/1,P1," ++ [Csv.dquote] ++ py "A, B" ++ [Csv.dquote; comma]
          ++ [Csv.dquote] ++ py "O1, O2" ++ [Csv.dquote] ++ [Csv.CR; Csv.LF])
  = Some [csv_header; [py "http://x/1"; py "P1"; py "A, B"; py "O1, O2"]].
Proof. reflexivity. Qed.

(** * Properties *)

(** ** String helpers *)

Lemma lstrip_by_split p s :
  exists pre, s = pre ++ lstrip_by p s /\ Forall (fun c => p c = true) pre.
Proof.
  induction s as [|c t [pre [Heq Hall]]]; simpl.
  - exists []. split; [reflexivity|constructor].
  - destruct (p c) eqn:Hc.
    + exists (c :: pre). split; [simpl; congruence|constructor; assumption].
    + exists []. split; [reflexivity|constructor].
Qed.

Lemma rstrip_by_split p s :
  exists suf, s = rstrip_by p s ++ suf /\ Forall (fun c => p c = true) suf.
Proof.
  unfold rstrip_by.
  destruct (lstrip_by_split p (rev s)) as [pre [Heq Hall]].
  exists (rev pre). split.
  - rewrite <- rev_app_distr, <- Heq, rev_involutive. reflexivity.
  - apply Forall_rev. exact Hall.
Qed.

Lemma strip_by_split p s :
  exists pre suf, s = pre ++ strip_by p s ++ suf
    /\ Forall (fun c => p c = true) pre /\ Forall (fun c => p c = true) suf.
Proof.
  unfold strip_by.
  destruct (lstrip_by_split p s) as [pre [Heq Hpre]].
  destruct (rstrip_by_split p (lstrip_by p s)) as [suf [Heq' Hsuf]].
  exists pre, suf. repeat split; try assumption.
  rewrite <- Heq'. exact Heq.
Qed.

Lemma lstrip_by_snoc_keep p s c :
  p c = false -> lstrip_by p (s ++ [c]) = lstrip_by p s ++ [c].
Proof.
  intros Hc. induction s as [|d t IH]; simpl.
  - rewrite Hc. reflexivity.
  - destruct (p d); [exact IH|reflexivity].
Qed.

Lemma rstrip_by_cons_keep p c t :
  p c = false -> rstrip_by p (c :: t) = c :: rstrip_by p t.
Proof.
  intros Hc. unfold rstrip_by. simpl.
  rewrite lstrip_by_snoc_keep by exact Hc.
  rewrite rev_app_distr. reflexivity.
Qed.

Lemma strip_by_cons_keep p c t :
  p c = false -> strip_by p (c :: t) = c :: rstrip_by p t.
Proof.
  intros Hc. unfold strip_by. simpl. rewrite Hc.
  apply rstrip_by_cons_keep. exact Hc.
Qed.

(** ** [strip_it] *)

(** A character one iteration of the loop may remove. *)
Definition strippable (c : N) : bool := isspace c || (c =? comma)%N.

(** The string starts with a character the loop never removes (or is
    empty). *)
Definition clean_start (s : pystr) : Prop :=
  match s with
  | [] => True
  | c :: _ => strippable c = false
  end.

Lemma strip_it_eq inp :
  strip_it inp = if strip_it_cond inp then strip_it (strip_it_body inp) else inp.
Proof.
  funelim (strip_it inp);
    match goal with H : strip_it_cond _ = _ |- _ => rewrite H end; reflexivity.
Qed.

Lemma isspace_strippable c : isspace c = true -> strippable c = true.
Proof. unfold strippable. intros ->. reflexivity. Qed.

Lemma in_comma_strippable c : in_chars [comma] c = true -> strippable c = true.
Proof.
  unfold strippable, in_chars. simpl. rewrite orb_false_r. intros ->.
  apply orb_true_r.
Qed.

Lemma strip_it_body_split inp :
  exists pre suf, inp = pre ++ strip_it_body inp ++ suf
    /\ Forall (fun c => strippable c = true) pre
    /\ Forall (fun c => strippable c = true) suf.
Proof.
  unfold strip_it_body, strip_chars, strip.
  destruct (strip_by_split isspace inp) as [p1 [s1 [E1 [P1 S1]]]].
  destruct (strip_by_split (in_chars [comma]) (strip_by isspace inp))
    as [p2 [s2 [E2 [P2 S2]]]].
  exists (p1 ++ p2), (s2 ++ s1). split; [|split].
  - rewrite E1 at 1. rewrite E2 at 1. rewrite <- !app_assoc. reflexivity.
  - apply Forall_app. split.
    + eapply Forall_impl; [exact P1|]. intros c. apply isspace_strippable.
    + eapply Forall_impl; [exact P2|]. intros c. apply in_comma_strippable.
  - apply Forall_app. split.
    + eapply Forall_impl; [exact S2|]. intros c. apply in_comma_strippable.
    + eapply Forall_impl; [exact S1|]. intros c. apply isspace_strippable.
Qed.

Lemma strip_it_body_clean inp :
  clean_start inp ->
  clean_start (strip_it_body inp)
  /\ exists suf, inp = strip_it_body inp ++ suf
       /\ Forall (fun c => strippable c = true) suf.
Proof.
  destruct inp as [|c t]; intros Hc.
  - split; [exact I|]. exists []. split; [reflexivity|constructor].
  - simpl in Hc. unfold strippable in Hc.
    apply orb_false_elim in Hc as [Hws Hcm].
    assert (Hin : in_chars [comma] c = false).
    { unfold in_chars. simpl. rewrite Hcm. reflexivity. }
    unfold strip_it_body, strip_chars, strip.
    rewrite (strip_by_cons_keep isspace) by exact Hws.
    rewrite (strip_by_cons_keep (in_chars [comma])) by exact Hin.
    split.
    + simpl. unfold strippable. rewrite Hws, Hcm. reflexivity.
    + destruct (rstrip_by_split isspace t) as [s1 [E1 S1]].
      destruct (rstrip_by_split (in_chars [comma]) (rstrip_by isspace t))
        as [s2 [E2 S2]].
      exists (s2 ++ s1). split.
      * rewrite E1 at 1. rewrite E2 at 1. simpl. rewrite <- app_assoc. reflexivity.
      * apply Forall_app. split.
        -- eapply Forall_impl; [exact S2|]. intros d. apply in_comma_strippable.
        -- eapply Forall_impl; [exact S1|]. intros d. apply isspace_strippable.
Qed.

Lemma strip_it_exit inp : strip_it_cond (strip_it inp) = false.
Proof.
  funelim (strip_it inp); assumption.
Qed.

Lemma strip_it_slice inp :
  exists pre suf, inp = pre ++ strip_it inp ++ suf
    /\ Forall (fun c => strippable c = true) pre
    /\ Forall (fun c => strippable c = true) suf.
Proof.
  funelim (strip_it inp).
  - match goal with
    | IH : exists _ _, _ |- _ => destruct IH as [p2 [s2 [E2 [P2 S2]]]]
    end.
    destruct (strip_it_body_split inp) as [p1 [s1 [E1 [P1 S1]]]].
    exists (p1 ++ p2), (s2 ++ s1). split; [|split].
    + rewrite E1 at 1. rewrite E2 at 1. rewrite <- !app_assoc. reflexivity.
    + apply Forall_app. split; assumption.
    + apply Forall_app. split; assumption.
  - exists [], []. split; [|split]; try constructor.
    rewrite app_nil_r. reflexivity.
Qed.

Lemma strip_it_end_only inp :
  clean_start inp ->
  exists suf, inp = strip_it inp ++ suf
    /\ Forall (fun c => strippable c = true) suf.
Proof.
  funelim (strip_it inp); intros Hclean.
  - destruct (strip_it_body_clean inp Hclean) as [Hc' [s1 [E1 S1]]].
    match goal with
    | IH : clean_start _ -> _ |- _ => destruct (IH Hc') as [s2 [E2 S2]]
    end.
    exists (s2 ++ s1). split.
    + rewrite E1 at 1. rewrite E2 at 1. rewrite <- app_assoc. reflexivity.
    + apply Forall_app. split; assumption.
  - exists []. split; [|constructor]. rewrite app_nil_r. reflexivity.
Qed.

Lemma strip_it_loop_enough inp :
  exists n, n <= length inp /\
    forall fuel, length inp < fuel -> strip_it_loop fuel inp = Some (strip_it inp, n).
Proof.
  funelim (strip_it inp).
  - match goal with
    | IH : exists _, _ |- _ => destruct IH as [n [Hn Hrun]]
    end.
    pose proof (strip_it_body_shrinks inp Hc) as Hlt.
    exists (S n). split; [lia|].
    intros [|fuel] Hf; [lia|]. simpl. rewrite Hc.
    rewrite Hrun by lia. reflexivity.
  - exists 0. split; [lia|].
    intros [|fuel] Hf; [lia|]. simpl.
    match goal with H : strip_it_cond _ = false |- _ => rewrite H end.
    reflexivity.
Qed.

(** ** The store *)

(** Rows at different positions have different urls. *)
Definition unique_urls (t : list Pages.Row) : Prop :=
  forall i j r1 r2,
    t !! i = Some r1 -> t !! j = Some r2 -> i <> j -> Pages.url r1 <> Pages.url r2.

(** Every stored url is text the driver could bind. *)
Definition urls_valid (t : list Pages.Row) : Prop :=
  Forall (fun r => valid_text (Pages.url r) = true) t.

Lemma unique_urls_NoDup t : unique_urls t <-> NoDup (Pages.urls t).
Proof.
  unfold unique_urls, Pages.urls. rewrite NoDup_alt. split.
  - intros H i j u Hi Hj.
    rewrite list_lookup_fmap in Hi, Hj.
    destruct (t !! i) as [r1|] eqn:E1; [|discriminate].
    destruct (t !! j) as [r2|] eqn:E2; [|discriminate].
    simpl in Hi, Hj. destruct (decide (i = j)) as [|Hne]; [assumption|].
    exfalso. apply (H i j r1 r2 E1 E2 Hne). congruence.
  - intros H i j r1 r2 Hi Hj Hne Heq. apply Hne.
    apply (H i j (Pages.url r1)); rewrite list_lookup_fmap.
    + rewrite Hi. reflexivity.
    + rewrite Hj, Heq. reflexivity.
Qed.

Lemma sanitize_valid s : valid_text (sanitize s) = true.
Proof.
  unfold valid_text, sanitize. apply forallb_forall.
  intros c Hc. apply filter_In in Hc. tauto.
Qed.

Lemma sanitize_id s : valid_text s = true -> sanitize s = s.
Proof.
  unfold valid_text, sanitize. induction s as [|c t IH]; simpl; [reflexivity|].
  intros H. apply andb_prop in H as [Hc Ht]. rewrite Hc, IH by exact Ht.
  reflexivity.
Qed.

(** The row [save_to_sqlite] appends when the insert goes through. *)
Definition new_row (t : list Pages.Row)
    (url part_no adaptable_for orig_part_no : pystr) : Pages.Row :=
  Pages.mkRow (Pages.next_id t) url
    (sanitize part_no) (sanitize adaptable_for) (sanitize orig_part_no).

Lemma save_to_sqlite_body_run url part_no adaptable_for orig_part_no w :
  save_to_sqlite_body url part_no adaptable_for orig_part_no w =
    if valid_text url then
      if decide (url ∈ Pages.urls (pages w))
      then (inr tt, add_stdout (SkippingDuplicateEntry url) w)
      else (inr tt, set_pages
             (pages w ++ [new_row (pages w) url part_no adaptable_for orig_part_no]) w)
    else (inl UnicodeEncodeError, w).
Proof.
  unfold save_to_sqlite_body, try_except, conn_execute_insert,
    save_to_sqlite_params, Pages.insert, Pages.bindable. simpl.
  rewrite !sanitize_valid. simpl. rewrite andb_true_r.
  destruct (valid_text url); simpl; [|reflexivity].
  destruct (decide (url ∈ Pages.urls (pages w))); reflexivity.
Qed.

(** The decorator never retries [save_to_sqlite]: its body raises neither
    [ConnectionError] nor [HTTPError]. *)
Lemma save_to_sqlite_run url part_no adaptable_for orig_part_no w :
  save_to_sqlite url part_no adaptable_for orig_part_no w =
  save_to_sqlite_body url part_no adaptable_for orig_part_no w.
Proof.
  unfold save_to_sqlite, retry. simpl.
  rewrite save_to_sqlite_body_run.
  destruct (valid_text url); [|reflexivity].
  destruct (decide (url ∈ Pages.urls (pages w))); reflexivity.
Qed.

Lemma urls_snoc t r : Pages.urls (t ++ [r]) = Pages.urls t ++ [Pages.url r].
Proof. unfold Pages.urls. rewrite map_app. reflexivity. Qed.

Lemma count_url_absent (t : list Pages.Row) u :
  u ∉ Pages.urls t -> List.filter (fun r => bool_decide (Pages.url r = u)) t = [].
Proof.
  induction t as [|r t IH]; simpl; intros Hn; [reflexivity|].
  rewrite bool_decide_eq_false_2.
  - apply IH. intros Hin. apply Hn. right. exact Hin.
  - intros Heq. apply Hn. rewrite <- Heq. left.
Qed.

Lemma count_url_present (t : list Pages.Row) u :
  NoDup (Pages.urls t) -> u ∈ Pages.urls t ->
  length (List.filter (fun r => bool_decide (Pages.url r = u)) t) = 1.
Proof.
  induction t as [|r t IH]; simpl; intros Hnd Hin.
  - inversion Hin.
  - apply NoDup_cons in Hnd as [Hr Hnd].
    destruct (decide (Pages.url r = u)) as [Heq|Hne].
    + rewrite bool_decide_eq_true_2 by exact Heq. simpl.
      rewrite count_url_absent; [reflexivity|]. rewrite <- Heq. exact Hr.
    + rewrite bool_decide_eq_false_2 by exact Hne.
      apply IH; [exact Hnd|].
      apply elem_of_cons in Hin as [Heq|Hin]; [congruence|exact Hin].
Qed.

(** ** The per-link task *)

Section ScraperProperties.

Variable server : pystr -> exn + pystr.
Variable Selector_loc : pystr -> exn + list pystr.
Variable Selector_article : pystr -> exn + ArticlePage.

Abbreviation fetch_contents' := (fetch_contents server Selector_article).
Abbreviation link_phase' := (link_phase server Selector_article).

Definition any_field (p a o : pystr) : bool :=
  truthy p || truthy a || truthy o.

(** The run of [fetch_contents] on a link that is not in the preloaded
    set, step by step. *)
Lemma fetch_contents_new link existing w :
  link ∉ existing ->
  fetch_contents' link existing w =
    let w1 := add_request link w in
    match server link with
    | inl e => (inr tt, add_stdout (ErrorParsing link e) w1)
    | inr content =>
        match Selector_article content with
        | inl e => (inr tt, add_stdout (ErrorParsing link e) w1)
        | inr doc =>
            let '(p, a, o) := extract_fields doc in
            if any_field p a o then
              if valid_text link then
                if decide (link ∈ Pages.urls (pages w))
                then (inr tt, add_stdout (SkippingDuplicateEntry link) w1)
                else (inr tt, set_pages
                       (pages w ++ [new_row (pages w) link p a o]) w1)
              else (inr tt, add_stdout (ErrorParsing link UnicodeEncodeError) w1)
            else (inr tt, w1)
        end
    end.
Proof.
  intros Hnew. unfold fetch_contents.
  destruct (decide (link ∈ existing)) as [Hin|_]; [contradiction|].
  unfold try_except, bind, session_get, lift, print, ret. simpl.
  destruct (server link) as [e|content]; [reflexivity|].
  destruct (Selector_article content) as [e|doc]; [reflexivity|].
  unfold any_field.
  destruct (truthy _ || truthy _ || truthy _); [|reflexivity].
  rewrite save_to_sqlite_run, save_to_sqlite_body_run. simpl.
  destruct (valid_text link); [|reflexivity].
  destruct (decide (link ∈ Pages.urls (pages w))); reflexivity.
Qed.

Lemma fetch_contents_known link existing w :
  link ∈ existing ->
  fetch_contents' link existing w =
    (inr tt, add_stdout (SkippingAlreadyProcessed link) w).
Proof.
  intros Hin. unfold fetch_contents.
  destruct (decide (link ∈ existing)); [reflexivity|contradiction].
Qed.

(** Everything one link task can do to the world. *)
Lemma fetch_contents_effect link existing w :
  exists w', fetch_contents' link existing w = (inr tt, w')
    /\ sleeps w' = sleeps w
    /\ requests w' = requests w ++ (if decide (link ∈ existing) then [] else [link])
    /\ (pages w' = pages w
        \/ exists content doc p a o,
             (link ∉ existing) /\ server link = inr content
             /\ Selector_article content = inr doc
             /\ extract_fields doc = (p, a, o)
             /\ any_field p a o = true
             /\ valid_text link = true
             /\ (link ∉ Pages.urls (pages w))
             /\ pages w' = pages w ++ [new_row (pages w) link p a o]).
Proof.
  destruct (decide (link ∈ existing)) as [Hin|Hnew].
  - rewrite fetch_contents_known by exact Hin. eexists. split; [reflexivity|].
    simpl. rewrite app_nil_r. auto.
  - rewrite fetch_contents_new by exact Hnew. cbv zeta.
    destruct (server link) as [e|content] eqn:Hs;
      [eexists; split; [reflexivity|simpl; auto]|].
    destruct (Selector_article content) as [e|doc] eqn:Hd;
      [eexists; split; [reflexivity|simpl; auto]|].
    destruct (extract_fields doc) as [[p a] o] eqn:Hf. cbv beta iota.
    destruct (any_field p a o) eqn:Hany;
      [|eexists; split; [reflexivity|simpl; auto]].
    destruct (valid_text link) eqn:Hv;
      [|eexists; split; [reflexivity|simpl; auto]].
    destruct (decide (link ∈ Pages.urls (pages w))) as [Hdup|Hfresh];
      [eexists; split; [reflexivity|simpl; auto]|].
    eexists. split; [reflexivity|]. simpl. repeat split; try reflexivity.
    right. exists content, doc, p, a, o. repeat split; auto.
Qed.

Lemma fetch_contents_keeps_rows link existing w u :
  u ∈ Pages.urls (pages w) ->
  u ∈ Pages.urls (pages (snd (fetch_contents' link existing w))).
Proof.
  intros Hu. destruct (fetch_contents_effect link existing w)
    as [w' [Hrun [_ [_ [Hsame|Hnew]]]]]; rewrite Hrun; simpl.
  - rewrite Hsame. exact Hu.
  - destruct Hnew as (? & ? & ? & ? & ? & _ & _ & _ & _ & _ & _ & _ & Hp).
    rewrite Hp, urls_snoc. apply elem_of_app. left. exact Hu.
Qed.

(** The link phase never raises, and issues one GET per link that is
    not in the preloaded set. *)
Lemma link_phase_effect links existing w :
  exists rs w', link_phase' links existing w = (inr rs, w')
    /\ length rs = length links
    /\ requests w' = requests w
         ++ List.filter (fun l => bool_decide (l ∉ existing)) links
    /\ forall u, u ∈ Pages.urls (pages w) -> u ∈ Pages.urls (pages w').
Proof.
  revert w. induction links as [|l rest IH]; intros w.
  - exists [], w. simpl. rewrite app_nil_r. auto.
  - unfold link_phase. simpl. unfold bind at 1.
    destruct (fetch_contents_effect l existing w) as [w1 [Hrun [_ [Hreq _]]]].
    pose proof (fetch_contents_keeps_rows l existing w) as Hkeep.
    rewrite Hrun in *. simpl in Hkeep.
    destruct (IH w1) as [rs [w2 [Hrest [Hlen [Hreq2 Hkeep2]]]]].
    unfold link_phase in Hrest. unfold bind. rewrite Hrest. simpl.
    exists (tt :: rs), w2. split; [reflexivity|].
    split; [simpl; congruence|]. split.
    + rewrite Hreq2, Hreq.
      destruct (decide (l ∈ existing)) as [Hin|Hnew].
      * rewrite bool_decide_eq_false_2 by (intros H; exact (H Hin)).
        rewrite app_nil_r. reflexivity.
      * rewrite bool_decide_eq_true_2 by exact Hnew.
        rewrite <- app_assoc. reflexivity.
    + intros u Hu. apply Hkeep2, Hkeep, Hu.
Qed.

(** A link whose page yields data is in the table once its task ran. *)
Lemma fetch_contents_stores link existing w content doc p a o :
  link ∉ existing -> valid_text link = true ->
  server link = inr content -> Selector_article content = inr doc ->
  extract_fields doc = (p, a, o) -> any_field p a o = true ->
  link ∈ Pages.urls (pages (snd (fetch_contents' link existing w)))
  /\ ((link ∉ Pages.urls (pages w)) ->
      pages (snd (fetch_contents' link existing w))
      = pages w ++ [new_row (pages w) link p a o]).
Proof.
  intros Hnew Hv Hs Hd Hf Hany.
  rewrite fetch_contents_new by exact Hnew. cbv zeta.
  rewrite Hs, Hd, Hf. cbv beta iota. rewrite Hany, Hv.
  destruct (decide (link ∈ Pages.urls (pages w))) as [Hdup|Hfresh]; simpl.
  - split; [exact Hdup|contradiction].
  - split; [|reflexivity]. rewrite urls_snoc. apply elem_of_app. right.
    simpl. left.
Qed.


End ScraperProperties.

(** ** Text validity through the field extraction *)

Lemma valid_text_app a b : valid_text (a ++ b) = valid_text a && valid_text b.
Proof. unfold valid_text. apply forallb_app. Qed.

Lemma valid_text_slice pre x suf :
  valid_text (pre ++ x ++ suf) = true -> valid_text x = true.
Proof.
  rewrite !valid_text_app. intros H.
  apply andb_prop in H as [_ H]. apply andb_prop in H as [H _]. exact H.
Qed.

Lemma strip_valid s : valid_text s = true -> valid_text (strip s) = true.
Proof.
  intros H. destruct (strip_by_split isspace s) as [pre [suf [E _]]].
  rewrite E in H. exact (valid_text_slice _ _ _ H).
Qed.

Lemma strip_it_valid s : valid_text s = true -> valid_text (strip_it s) = true.
Proof.
  intros H. destruct (strip_it_slice s) as [pre [suf [E _]]].
  rewrite E in H. exact (valid_text_slice _ _ _ H).
Qed.

Lemma join_valid sep xs :
  valid_text sep = true -> Forall (fun x => valid_text x = true) xs ->
  valid_text (join sep xs) = true.
Proof.
  intros Hsep Hxs. induction Hxs as [|x rest Hx Hrest IH]; [reflexivity|].
  simpl. destruct rest as [|y rest']; [exact Hx|].
  rewrite !valid_text_app, Hx, Hsep, IH. reflexivity.
Qed.

Lemma truthy_nonempty s : truthy s = true <-> s <> [].
Proof. destruct s; simpl; split; congruence. Qed.

(** The parsed page holds text only (no lone surrogate): parsel encodes
    its input as UTF-8 before parsing and lxml hands back decoded text. *)
Definition article_valid (doc : ArticlePage) : Prop :=
  valid_text (part_no_text doc) = true
  /\ Forall (fun item => valid_text (fst item) = true /\ valid_text (snd item) = true)
       (att_val_rows doc).

Lemma extract_fields_valid doc p a o :
  article_valid doc -> extract_fields doc = (p, a, o) ->
  valid_text p = true /\ valid_text a = true /\ valid_text o = true.
Proof.
  intros [Hp Hrows] Hf. unfold extract_fields in Hf.
  injection Hf as <- <- <-. split; [|split].
  - apply strip_valid, Hp.
  - apply strip_it_valid, join_valid; [reflexivity|].
    apply Forall_map. eapply Forall_impl; [exact Hrows|].
    intros item [H _]. apply strip_valid, H.
  - apply strip_it_valid, join_valid; [reflexivity|].
    apply Forall_map. eapply Forall_impl; [exact Hrows|].
    intros item [_ H]. apply strip_valid, H.
Qed.

(** At least one of the three extracted columns of the row is non-empty. *)
Definition field_present (r : Pages.Row) : Prop :=
  Pages.part_no r <> [] \/ Pages.adaptable_for r <> [] \/ Pages.orig_part_no r <> [].

Lemma any_field_present p a o :
  any_field p a o = true <-> p <> [] \/ a <> [] \/ o <> [].
Proof.
  unfold any_field. rewrite !orb_true_iff, !truthy_nonempty. tauto.
Qed.

Lemma new_row_field_present t url p a o :
  valid_text p = true -> valid_text a = true -> valid_text o = true ->
  any_field p a o = true -> field_present (new_row t url p a o).
Proof.
  intros Hp Ha Ho Hany. unfold field_present, new_row. simpl.
  rewrite !sanitize_id by assumption. apply any_field_present, Hany.
Qed.

(** ** The sitemap phases *)

Section SitemapProperties.

Variable server : pystr -> exn + pystr.
Variable Selector_loc : pystr -> exn + list pystr.

(** What [fetch_url] returns for a seed. *)
Definition fetched (url : pystr) : option pystr :=
  match server url with
  | inr text => Some text
  | inl _ => None
  end.

(** What [extract_links] returns for a document. *)
Definition links_in (page : pystr) : list pystr :=
  match Selector_loc page with
  | inr ls => ls
  | inl _ => []
  end.

(** The links one seed contributes to the flattened sequence. *)
Definition seed_links (url : pystr) : list pystr :=
  match server url with
  | inl _ => []
  | inr page => if truthy page then links_in page else []
  end.

Definition occurrences (x : pystr) (l : list pystr) : nat :=
  length (List.filter (fun y => bool_decide (y = x)) l).

Lemma fetch_url_run url w :
  fetch_url server url w =
    match server url with
    | inr text => (inr (Some text), add_request url w)
    | inl e => (inr None, add_stdout (ErrorFetching url e) (add_request url w))
    end.
Proof.
  unfold fetch_url, try_except, bind, session_get, ret, print. simpl.
  destruct (server url); reflexivity.
Qed.

Lemma extract_links_run page w :
  extract_links Selector_loc page w =
    match Selector_loc page with
    | inr ls => (inr ls, w)
    | inl e => (inr [], add_stdout (ErrorExtractingLinks e) w)
    end.
Proof.
  unfold extract_links, try_except, bind, lift, ret, print.
  destruct (Selector_loc page); reflexivity.
Qed.

Lemma gather_fetch_url seeds w :
  exists w', gather (map (fetch_url server) seeds) w = (inr (map fetched seeds), w')
    /\ pages w' = pages w /\ requests w' = requests w ++ seeds.
Proof.
  revert w. induction seeds as [|u rest IH]; intros w; simpl.
  - exists w. rewrite app_nil_r. auto.
  - unfold bind at 1. rewrite fetch_url_run. unfold fetched at 1.
    destruct (server u) as [e|text].
    + destruct (IH (add_stdout (ErrorFetching u e) (add_request u w)))
        as [w' [Hrun [Hp Hr]]].
      unfold bind. rewrite Hrun. eexists. split; [reflexivity|].
      simpl in *. rewrite Hp, Hr, <- app_assoc. auto.
    + destruct (IH (add_request u w)) as [w' [Hrun [Hp Hr]]].
      unfold bind. rewrite Hrun. eexists. split; [reflexivity|].
      simpl in *. rewrite Hp, Hr, <- app_assoc. auto.
Qed.

Lemma gather_extract_links docs w :
  exists w', gather (map (extract_links Selector_loc) docs) w
               = (inr (map links_in docs), w')
    /\ pages w' = pages w /\ requests w' = requests w.
Proof.
  revert w. induction docs as [|d rest IH]; intros w; simpl.
  - exists w. auto.
  - unfold bind at 1. rewrite extract_links_run. unfold links_in at 1.
    destruct (Selector_loc d) as [e|ls].
    + destruct (IH (add_stdout (ErrorExtractingLinks e) w)) as [w' [Hrun [Hp Hr]]].
      unfold bind. rewrite Hrun. eexists. split; [reflexivity|].
      simpl in *. auto.
    + destruct (IH w) as [w' [Hrun [Hp Hr]]].
      unfold bind. rewrite Hrun. eexists. split; [reflexivity|]. auto.
Qed.

Lemma flatten_seed_links seeds :
  concat (map links_in (truthy_pages (map fetched seeds)))
  = flat_map seed_links seeds.
Proof.
  induction seeds as [|u rest IH]; [reflexivity|].
  simpl. unfold fetched at 1, seed_links at 1.
  destruct (server u) as [e|page]; simpl; [exact IH|].
  destruct (truthy page); simpl; [|exact IH].
  rewrite <- IH. reflexivity.
Qed.

Lemma sitemap_phase_run seeds w :
  exists w', sitemap_phase server Selector_loc seeds w
               = (inr (flat_map seed_links seeds), w')
    /\ pages w' = pages w /\ requests w' = requests w ++ seeds.
Proof.
  unfold sitemap_phase, bind at 1, print.
  destruct (gather_fetch_url seeds (add_stdout FetchingSitemaps w))
    as [w1 [Hrun1 [Hp1 Hr1]]].
  unfold bind at 1. rewrite Hrun1. unfold bind at 1.
  destruct (gather_extract_links (truthy_pages (map fetched seeds))
              (add_stdout ExtractingLinks w1)) as [w2 [Hrun2 [Hp2 Hr2]]].
  unfold bind, ret. rewrite Hrun2.
  exists w2. rewrite flatten_seed_links. split; [reflexivity|].
  simpl in *. rewrite Hp2, Hp1, Hr2, Hr1. auto.
Qed.

Lemma occurrences_app x a b :
  occurrences x (a ++ b) = occurrences x a + occurrences x b.
Proof. unfold occurrences. rewrite List.filter_app, length_app. reflexivity. Qed.

Lemma occurrences_flat_map x (f : pystr -> list pystr) seeds :
  occurrences x (flat_map f seeds)
  = list_sum (map (fun u => occurrences x (f u)) seeds).
Proof.
  induction seeds as [|u rest IH]; [reflexivity|].
  simpl. rewrite occurrences_app, IH. reflexivity.
Qed.

End SitemapProperties.

(** ** Reading back what [csv.writer] wrote *)

Module CsvFacts.
Import Csv.














End CsvFacts.

(** ** What the retry decorator does when its body keeps failing *)

Lemma retry_call_transient (server : pystr -> exn + pystr) url e more w :
  server url = inl e ->
  retry_if_exception_type [ConnectionError; HTTPError] e = true ->
  let run := retry_call (retry_if_exception_type [ConnectionError; HTTPError])
               1%N more (session_get server url) w in
  fst run = inl RetryError
  /\ requests (snd run) = requests w ++ repeat url (S more)
  /\ sleeps (snd run) = sleeps w ++ repeat 1%N more.
Proof.
  intros Hs He.
  assert (Hget : forall w0, session_get server url w0 = (inl e, add_request url w0)).
  { intros w0. unfold session_get. rewrite Hs. reflexivity. }
  revert w. induction more as [|k IH]; intros w; cbv zeta; cbn [retry_call].
  - rewrite Hget, He. simpl. rewrite app_nil_r. auto.
  - rewrite Hget, He.
    destruct (IH (add_sleep 1%N (add_request url w))) as [H1 [H2 H3]].
    split; [exact H1|]. split.
    + rewrite H2. simpl. rewrite <- app_assoc. reflexivity.
    + rewrite H3. simpl. rewrite <- app_assoc. reflexivity.
Qed.

Lemma retry_other_exception {A} (body : M A) retry_if wait n e w w' :
  body w = (inl e, w') -> retry_if e = false ->
  retry retry_if n wait body w = (inl e, w').
Proof.
  intros Hb He. unfold retry. destruct (n - 1); simpl; rewrite Hb, He; reflexivity.
Qed.

(** ** Demonstration site

    A three-page site used to run the functions on concrete inputs. *)

Module Demo.

Definition sitemap_a : pystr :=
  py "https://www.industriehof.com/sitemap_xml/xml_ordner/en_sitemap_a.xml".
Definition sitemap_b : pystr :=
  py "https://www.industriehof.com/sitemap_xml/xml_ordner/en_sitemap_b.xml".
Definition link1 : pystr := py "http://x/1".
Definition link2 : pystr := py "http://x/2".
Definition link3 : pystr := py "http://x/3".

Definition server (url : pystr) : exn + pystr :=
  if bool_decide (url = sitemap_a) then inr (py "<sitemap a>")
  else if bool_decide (url = link1) then inr (py "<article 1>")
  else if bool_decide (url = link2) then inr (py "<broken>")
  else if bool_decide (url = link3) then inr (py "<bare>")
  else inl ConnectionError.

Definition Selector_loc (page : pystr) : exn + list pystr :=
  if bool_decide (page = py "<sitemap a>") then inr [link2; link1; link2]
  else if bool_decide (page = py "<garbage>") then inl OtherException
  else inr [].

Definition Selector_article (content : pystr) : exn + ArticlePage :=
  if bool_decide (content = py "<article 1>") then
    inr (mkArticlePage (py " ABC-123 ")
           [(py "X", py "O1"); (py " Y", py ""); (py "", py "")])
  else if bool_decide (content = py "<bare>") then
    inr (mkArticlePage [] [])
  else inl OtherException.

Definition world0 : World := mkWorld [] [] [] [] None.

Definition row1 : Pages.Row :=
  Pages.mkRow 1 link1 (py "ABC-123") (py "X, Y") (py "O1").

Definition world1 : World := mkWorld [row1] [] [] [] None.

Lemma Selector_article_valid content doc :
  Selector_article content = inr doc -> article_valid doc.
Proof.
  unfold Selector_article.
  destruct (bool_decide (content = py "<article 1>")).
  - intros [= <-]. split; [reflexivity|].
    repeat constructor.
  - destruct (bool_decide (content = py "<bare>")); [|discriminate].
    intros [= <-]. split; [reflexivity|constructor].
Qed.

Example fetch_contents_link1 :
  pages (snd (fetch_contents server Selector_article link1 ∅ world0)) = [row1].
Proof. vm_compute. reflexivity. Qed.

Example main_run :
  pages (snd (main server Selector_loc Selector_article world0)) = [row1].
Proof. vm_compute. reflexivity. Qed.

End Demo.

(** * The specification's properties *)

(** ** Fetching *)

(** C1 (what the code does). Every fetch issues exactly one GET and never
    sleeps, whatever the server answers: [fetch_url] turns any exception,
    transient or not, into [None] after that single attempt, and the page
    fetch of [fetch_contents] likewise is attempted once. The retry
    decorator of the module sits on [save_to_sqlite], not on a fetch. *)
Theorem fetch_attempted_once
    (server : pystr -> exn + pystr)
    (Selector_article : pystr -> exn + ArticlePage) (url : pystr) (w : World) :
  fetch_url server url w =
    match server url with
    | inr text => (inr (Some text), add_request url w)
    | inl e => (inr None, add_stdout (ErrorFetching url e) (add_request url w))
    end
  /\ requests (snd (fetch_url server url w)) = requests w ++ [url]
  /\ sleeps (snd (fetch_url server url w)) = sleeps w
  /\ requests (snd (fetch_contents server Selector_article url ∅ w))
     = requests w ++ [url]
  /\ sleeps (snd (fetch_contents server Selector_article url ∅ w)) = sleeps w
  /\ fetch_url (fun _ => inl ConnectionError) url w
     = (inr None, add_stdout (ErrorFetching url ConnectionError) (add_request url w)).
Proof.
  split; [apply fetch_url_run|].
  rewrite fetch_url_run.
  destruct (fetch_contents_effect server Selector_article url ∅ w)
    as [w' [Hrun [Hsl [Hreq _]]]].
  rewrite Hrun. simpl.
  destruct (decide (url ∈ (∅ : gset pystr))) as [Hin|_];
    [exfalso; exact (not_elem_of_empty url Hin)|].
  repeat split; try assumption;
    try (destruct (server url); reflexivity).
Qed.

(** ** The store *)

(** C3. Rows at different positions have different urls, and
    [save_to_sqlite] keeps it so; an insert for a url that is already
    stored returns normally, prints the skip line and changes nothing
    else, so exactly one row carries that url. The empty table of a fresh
    database satisfies the invariant. *)
Theorem url_uniqueness_preserved
    (url part_no adaptable_for orig_part_no : pystr) (w : World) :
  unique_urls (pages w) -> urls_valid (pages w) ->
  let run := save_to_sqlite url part_no adaptable_for orig_part_no w in
  unique_urls (pages (snd run))
  /\ urls_valid (pages (snd run))
  /\ (url ∈ Pages.urls (pages w) ->
      run = (inr tt, add_stdout (SkippingDuplicateEntry url) w)
      /\ pages (snd run) = pages w
      /\ length (List.filter (fun r => bool_decide (Pages.url r = url))
                   (pages (snd run))) = 1)
  /\ unique_urls (init_db None) /\ urls_valid (init_db None).
Proof.
  intros Huniq Hvalid run. subst run.
  rewrite save_to_sqlite_run, save_to_sqlite_body_run.
  assert (Hempty : unique_urls (init_db None) /\ urls_valid (init_db None)).
  { split; [|constructor]. intros i j r1 r2 Hi. destruct i; discriminate. }
  destruct (valid_text url) eqn:Hv.
  - destruct (decide (url ∈ Pages.urls (pages w))) as [Hdup|Hfresh]; simpl.
    + repeat split; try assumption; try apply Hempty.
      apply count_url_present; [apply unique_urls_NoDup, Huniq|exact Hdup].
    + split; [|split; [|split]]; try apply Hempty.
      * apply unique_urls_NoDup. rewrite urls_snoc.
        apply NoDup_app. split; [apply unique_urls_NoDup, Huniq|]. split.
        -- intros u Hu Hu'. apply list_elem_of_singleton in Hu'. simpl in Hu'.
           subst u. exact (Hfresh Hu).
        -- apply NoDup_singleton.
      * apply Forall_app. split; [exact Hvalid|].
        constructor; [exact Hv|constructor].
      * intros Hin. contradiction.
  - simpl. split; [exact Huniq|]. split; [exact Hvalid|]. split; [|exact Hempty].
    intros Hin. exfalso.
    unfold urls_valid in Hvalid. rewrite Forall_forall in Hvalid.
    unfold Pages.urls in Hin. apply list_elem_of_fmap in Hin as [r [-> Hr]].
    specialize (Hvalid r Hr). congruence.
Qed.

Lemma url_uniqueness_preserved_witness :
  save_to_sqlite Demo.link1 (py "P") [] [] Demo.world1
  = (inr tt, add_stdout (SkippingDuplicateEntry Demo.link1) Demo.world1).
Proof.
  refine (proj1 (proj1 (proj2 (proj2
    (url_uniqueness_preserved Demo.link1 (py "P") [] [] Demo.world1 _ _))) _)).
  - intros [|[|i]] [|[|j]] r1 r2 Hi Hj Hne; try discriminate; congruence.
  - repeat constructor.
  - vm_compute. left.
Defined.

(** C8 (amended). [save_to_sqlite] binds the url exactly as it was passed
    and the three extracted fields sanitized: each of the three is valid
    text and is the argument with its unencodable code points dropped. A
    row that gets written is made of those four values, and then the url
    is valid text too, because an insert whose url is not valid text
    raises [UnicodeEncodeError] and writes nothing. *)
Theorem stored_fields_sanitized
    (url part_no adaptable_for orig_part_no : pystr) (w : World) :
  let run := save_to_sqlite url part_no adaptable_for orig_part_no w in
  save_to_sqlite_params url part_no adaptable_for orig_part_no
    = (url, sanitize part_no, sanitize adaptable_for, sanitize orig_part_no)
  /\ valid_text (sanitize part_no) = true
  /\ valid_text (sanitize adaptable_for) = true
  /\ valid_text (sanitize orig_part_no) = true
  /\ (pages (snd run) = pages w
      \/ (valid_text url = true
          /\ pages (snd run)
             = pages w ++ [Pages.mkRow (Pages.next_id (pages w)) url
                             (sanitize part_no) (sanitize adaptable_for)
                             (sanitize orig_part_no)]))
  /\ (valid_text url = false -> run = (inl UnicodeEncodeError, w))
  /\ (forall s, valid_text s = true -> sanitize s = s).
Proof.
  intros run. subst run.
  rewrite save_to_sqlite_run, save_to_sqlite_body_run.
  split; [reflexivity|]. rewrite !sanitize_valid.
  repeat (split; [reflexivity|]).
  split; [|split].
  - destruct (valid_text url); [|left; reflexivity].
    destruct (decide (url ∈ Pages.urls (pages w))); [left; reflexivity|].
    right. split; reflexivity.
  - intros ->. reflexivity.
  - apply sanitize_id.
Qed.

Lemma stored_fields_sanitized_witness :
  save_to_sqlite (py "http://x/" ++ [55296%N]) (py "P1") [] [] Demo.world0
    = (inl UnicodeEncodeError, Demo.world0)
  /\ sanitize (py "P1") = py "P1".
Proof.
  split.
  - apply (stored_fields_sanitized
             (py "http://x/" ++ [55296%N]) (py "P1") [] [] Demo.world0).
    reflexivity.
  - apply (stored_fields_sanitized Demo.link1 (py "P1") [] [] Demo.world0).
    reflexivity.
Defined.

(** C8 as the specification words it fails for the url: a url with a lone
    surrogate is bound as it is, not sanitized, and the record is not
    written at all. *)
Lemma url_not_sanitized_counterexample :
  fst (fst (fst (save_to_sqlite_params (py "http://x/" ++ [55296%N]) (py "P1") [] [])))
    <> sanitize (py "http://x/" ++ [55296%N])
  /\ save_to_sqlite (py "http://x/" ++ [55296%N]) (py "P1") [] [] Demo.world0
     = (inl UnicodeEncodeError, Demo.world0).
Proof.
  split; [|reflexivity]. vm_compute. discriminate.
Qed.

(** C2. Every stored row has a non-empty [part_no], [adaptable_for] or
    [orig_part_no], and [fetch_contents] keeps it so: the task writes a
    row only when one of the three extracted fields is non-empty, the row
    it writes carries those fields, and an extraction with three empty
    fields leaves the table as it was. The extracted fields are text the
    page parser produced, which holds no lone surrogate. *)
Theorem field_presence_invariant
    (server : pystr -> exn + pystr)
    (Selector_article : pystr -> exn + ArticlePage)
    (link : pystr) (existing_urls : gset pystr) (w : World) :
  (forall content doc, Selector_article content = inr doc -> article_valid doc) ->
  Forall field_present (pages w) ->
  let w' := snd (fetch_contents server Selector_article link existing_urls w) in
  Forall field_present (pages w')
  /\ (pages w' = pages w
      \/ exists content doc p a o,
           server link = inr content /\ Selector_article content = inr doc
           /\ extract_fields doc = (p, a, o)
           /\ (p <> [] \/ a <> [] \/ o <> [])
           /\ pages w' = pages w ++ [Pages.mkRow (Pages.next_id (pages w)) link p a o])
  /\ (forall content doc,
        server link = inr content -> Selector_article content = inr doc ->
        extract_fields doc = ([], [], []) ->
        w' = if decide (link ∈ existing_urls)
             then add_stdout (SkippingAlreadyProcessed link) w
             else add_request link w).
Proof.
  intros Hparser Hinv w'. subst w'.
  assert (Hempty : forall content doc,
    server link = inr content -> Selector_article content = inr doc ->
    extract_fields doc = ([], [], []) ->
    snd (fetch_contents server Selector_article link existing_urls w)
    = if decide (link ∈ existing_urls)
      then add_stdout (SkippingAlreadyProcessed link) w
      else add_request link w).
  { intros content doc Hs Hd Hf.
    destruct (decide (link ∈ existing_urls)) as [Hin|Hnew].
    - rewrite (fetch_contents_known server Selector_article) by exact Hin.
      reflexivity.
    - rewrite (fetch_contents_new server Selector_article) by exact Hnew.
      cbv zeta. rewrite Hs, Hd, Hf. reflexivity. }
  destruct (fetch_contents_effect server Selector_article link existing_urls w)
    as [w' [Hrun [_ [_ Hpages]]]].
  rewrite Hrun. simpl.
  destruct Hpages as [Hsame|Hnew].
  - rewrite Hsame. split; [exact Hinv|]. split; [left; reflexivity|].
    rewrite Hrun in Hempty. exact Hempty.
  - destruct Hnew as (content & doc & p & a & o & Hn & Hs & Hd & Hf & Hany & Hv & Hfresh & Hp).
    destruct (extract_fields_valid doc p a o (Hparser _ _ Hd) Hf) as [Vp [Va Vo]].
    split; [|split].
    + rewrite Hp. apply Forall_app. split; [exact Hinv|].
      constructor; [|constructor].
      apply new_row_field_present; assumption.
    + right. exists content, doc, p, a, o.
      repeat split; try assumption.
      * apply any_field_present, Hany.
      * rewrite Hp. unfold new_row. rewrite !sanitize_id by assumption. reflexivity.
    + rewrite Hrun in Hempty. exact Hempty.
Qed.

Lemma field_presence_invariant_witness :
  Forall field_present
    (pages (snd (fetch_contents Demo.server Demo.Selector_article
                   Demo.link1 ∅ Demo.world0)))
  /\ snd (fetch_contents Demo.server Demo.Selector_article
            Demo.link3 ∅ Demo.world1) = add_request Demo.link3 Demo.world1.
Proof.
  split.
  - apply (field_presence_invariant Demo.server Demo.Selector_article
             Demo.link1 ∅ Demo.world0 Demo.Selector_article_valid).
    constructor.
  - refine (proj2 (proj2 (field_presence_invariant Demo.server
              Demo.Selector_article Demo.link3 ∅ Demo.world1
              Demo.Selector_article_valid _)) (py "<bare>") (mkArticlePage [] []) _ _ _).
    + constructor; [left; discriminate|constructor].
    + reflexivity.
    + reflexivity.
    + reflexivity.
Defined.

(** ** [strip_it] *)

(** C4 (amended). [strip_it] repeats, as long as the whitespace-trimmed
    string ends with a comma, a trim of whitespace and then of commas at
    both ends. Its result, once trimmed of whitespace, does not end with a
    comma; it is a contiguous slice of the input, and what was removed
    before and after it is whitespace and commas only. When the input
    starts with neither whitespace nor a comma, only its end is stripped.
    ["X, Y, , "] becomes ["X, Y"], in two iterations. *)
Theorem strip_it_cleanup (inp : pystr) :
  endswith (strip (strip_it inp)) [comma] = false
  /\ (exists pre suf, inp = pre ++ strip_it inp ++ suf
        /\ Forall (fun c => strippable c = true) pre
        /\ Forall (fun c => strippable c = true) suf)
  /\ (clean_start inp ->
      exists suf, inp = strip_it inp ++ suf
        /\ Forall (fun c => strippable c = true) suf)
  /\ (strip_it_cond inp = false -> strip_it inp = inp)
  /\ strip_it (py "X, Y, , ") = py "X, Y"
  /\ strip_it_loop 9 (py "X, Y, , ") = Some (py "X, Y", 2).
Proof.
  split; [exact (strip_it_exit inp)|].
  split; [exact (strip_it_slice inp)|].
  split; [exact (strip_it_end_only inp)|].
  split; [|split; reflexivity].
  intros H. rewrite strip_it_eq, H. reflexivity.
Qed.

Lemma strip_it_cleanup_witness :
  (exists suf, py "X, Y, , " = strip_it (py "X, Y, , ") ++ suf
     /\ Forall (fun c => strippable c = true) suf)
  /\ strip_it (py "X, Y ") = py "X, Y ".
Proof.
  split.
  - apply (strip_it_cleanup (py "X, Y, , ")). reflexivity.
  - apply (strip_it_cleanup (py "X, Y ")). reflexivity.
Defined.

(** C4 as the specification words it fails: the join of the cells
    ["", "A", ""] is [", A, "], and [strip_it] also removes the comma at
    its start, so the result [" A"] is not the input with its end
    stripped. *)
Lemma strip_it_end_only_counterexample :
  join (py ", ") [[]; py "A"; []] = py ", A, "
  /\ strip_it (py ", A, ") = py " A"
  /\ ~ (exists suf, py ", A, " = strip_it (py ", A, ") ++ suf).
Proof.
  split; [reflexivity|]. split; [reflexivity|].
  intros [suf H]. vm_compute in H. discriminate H.
Qed.

(** C10. [strip_it] terminates on every input: an iteration that runs
    leaves a strictly shorter string, so the loop makes at most
    [length inp] iterations, and run with any larger budget it returns the
    value of [strip_it]. *)
Theorem strip_it_terminates (inp : pystr) :
  (strip_it_cond inp = true -> length (strip_it_body inp) < length inp)
  /\ exists n, n <= length inp
       /\ forall fuel, length inp < fuel ->
            strip_it_loop fuel inp = Some (strip_it inp, n).
Proof.
  split; [apply strip_it_body_shrinks|apply strip_it_loop_enough].
Qed.

Lemma strip_it_terminates_witness :
  length (strip_it_body (py "X, Y, , ")) < length (py "X, Y, , ")
  /\ exists n, strip_it_loop 9 (py "X, Y, , ") = Some (strip_it (py "X, Y, , "), n).
Proof.
  split.
  - apply (strip_it_terminates (py "X, Y, , ")). reflexivity.
  - destruct (proj2 (strip_it_terminates (py "X, Y, , "))) as [n [_ Hrun]].
    exists n. apply Hrun. simpl. lia.
Defined.

(** ** The harvest *)

(** C5. The preloaded set holds exactly the stored urls. A link in it is
    skipped at once: the task prints the skip line and does nothing else,
    so no GET is issued and the table is untouched. A link outside it is
    fetched with one GET, and when the page yields a non-empty field the
    task goes on to [save_to_sqlite] with the link and the three fields:
    afterwards the link is in the table, as a new row of those fields when
    it was not stored before. *)
Theorem preloaded_links_skipped
    (server : pystr -> exn + pystr)
    (Selector_article : pystr -> exn + ArticlePage)
    (link : pystr) (existing_urls : gset pystr) (w : World) :
  let run := fetch_contents server Selector_article link existing_urls w in
  (forall w0, exists loaded : gset pystr,
       get_existing_urls w0 = (inr loaded, w0)
       /\ forall u, u ∈ loaded <-> u ∈ Pages.urls (pages w0))
  /\ (link ∈ existing_urls ->
      run = (inr tt, add_stdout (SkippingAlreadyProcessed link) w)
      /\ requests (snd run) = requests w /\ pages (snd run) = pages w)
  /\ (link ∉ existing_urls ->
      requests (snd run) = requests w ++ [link]
      /\ forall content doc p a o,
           server link = inr content -> Selector_article content = inr doc ->
           extract_fields doc = (p, a, o) -> any_field p a o = true ->
           run = try_except (save_to_sqlite link p a o)
                   (fun e => print (ErrorParsing link e)) (add_request link w)
           /\ (valid_text link = true ->
               link ∈ Pages.urls (pages (snd run))
               /\ ((link ∉ Pages.urls (pages w)) ->
                   pages (snd run) = pages w ++ [new_row (pages w) link p a o]))).
Proof.
  intros run. subst run. split; [|split].
  - intros w0. eexists. split; [reflexivity|].
    intros u. apply elem_of_list_to_set.
  - intros Hin. rewrite fetch_contents_known by exact Hin. auto.
  - intros Hnew. split.
    + destruct (fetch_contents_effect server Selector_article link existing_urls w)
        as [w' [Hrun [_ [Hreq _]]]].
      rewrite Hrun. simpl. rewrite Hreq.
      destruct (decide (link ∈ existing_urls)); [contradiction|reflexivity].
    + intros content doc p a o Hs Hd Hf Hany. split.
      * unfold fetch_contents.
        destruct (decide (link ∈ existing_urls)); [contradiction|].
        unfold try_except, bind, session_get, lift. rewrite Hs, Hd, Hf.
        cbv beta iota. unfold any_field in Hany. rewrite Hany. reflexivity.
      * intros Hv.
        exact (fetch_contents_stores server Selector_article link existing_urls
                 w content doc p a o Hnew Hv Hs Hd Hf Hany).
Qed.

Lemma preloaded_links_skipped_witness :
  fetch_contents Demo.server Demo.Selector_article Demo.link1 {[Demo.link1]} Demo.world1
    = (inr tt, add_stdout (SkippingAlreadyProcessed Demo.link1) Demo.world1)
  /\ pages (snd (fetch_contents Demo.server Demo.Selector_article Demo.link1 ∅
                   Demo.world0))
     = [Demo.row1].
Proof.
  split.
  - apply (preloaded_links_skipped Demo.server Demo.Selector_article
             Demo.link1 {[Demo.link1]} Demo.world1).
    apply elem_of_singleton. reflexivity.
  - refine (proj2 (proj2 (proj2 (proj2 (proj2
      (preloaded_links_skipped Demo.server Demo.Selector_article
         Demo.link1 ∅ Demo.world0)) _)
      (py "<article 1>")
      (mkArticlePage (py " ABC-123 ")
         [(py "X", py "O1"); (py " Y", py ""); (py "", py "")])
      (py "ABC-123") (py "X, Y") (py "O1") _ _ _ _) _) _).
    + apply not_elem_of_empty.
    + reflexivity.
    + reflexivity.
    + reflexivity.
    + reflexivity.
    + reflexivity.
    + simpl. apply not_elem_of_nil.
Defined.


(** C7. A seed whose fetch fails gives [None] and contributes no link;
    the flattened sequence is the concatenation, in seed order, of what
    each fetched sitemap yields in document order, and nothing is
    deduplicated: a link occurs in it as many times as in all the
    sitemaps together. An empty response body is skipped like a failed
    fetch, which changes nothing as long as the empty document holds no
    link. *)
Theorem sitemap_links_flattened
    (server : pystr -> exn + pystr)
    (Selector_loc : pystr -> exn + list pystr)
    (seeds : list pystr) (w : World) :
  fst (gather (map (fetch_url server) seeds) w) = inr (map (fetched server) seeds)
  /\ (forall u e, server u = inl e ->
        fetched server u = None /\ seed_links server Selector_loc u = [])
  /\ fst (sitemap_phase server Selector_loc seeds w)
     = inr (flat_map (seed_links server Selector_loc) seeds)
  /\ (links_in Selector_loc [] = [] ->
      forall u page, server u = inr page ->
        seed_links server Selector_loc u = links_in Selector_loc page)
  /\ (forall x,
        occurrences x (flat_map (seed_links server Selector_loc) seeds)
        = list_sum (map (fun u => occurrences x (seed_links server Selector_loc u))
                      seeds)).
Proof.
  split; [|split; [|split; [|split]]].
  - destruct (gather_fetch_url server seeds w) as [w' [Hrun _]].
    rewrite Hrun. reflexivity.
  - intros u e Hu. unfold fetched, seed_links. rewrite Hu. auto.
  - destruct (sitemap_phase_run server Selector_loc seeds w) as [w' [Hrun _]].
    rewrite Hrun. reflexivity.
  - intros Hempty u page Hu. unfold seed_links. rewrite Hu.
    destruct page; [symmetry; exact Hempty|reflexivity].
  - intros x. apply occurrences_flat_map.
Qed.

Lemma sitemap_links_flattened_witness :
  Demo.server Demo.sitemap_b = inl ConnectionError
  /\ fetched Demo.server Demo.sitemap_b = None
  /\ seed_links Demo.server Demo.Selector_loc Demo.sitemap_a
     = [Demo.link2; Demo.link1; Demo.link2].
Proof.
  split; [reflexivity|]. split.
  - apply (proj1 (proj2 (sitemap_links_flattened Demo.server Demo.Selector_loc
             [Demo.sitemap_a; Demo.sitemap_b] Demo.world0))
             Demo.sitemap_b ConnectionError).
    reflexivity.
  - apply (proj1 (proj2 (proj2 (proj2 (sitemap_links_flattened Demo.server
             Demo.Selector_loc [Demo.sitemap_a; Demo.sitemap_b] Demo.world0))))
             eq_refl Demo.sitemap_a (py "<sitemap a>")).
    reflexivity.
Defined.



(** * Further properties of the harvest *)

(** ** Relations between the world before and after a task *)

(** Nothing slept, the export file untouched. *)
Definition quiet (w w' : World) : Prop :=
  sleeps w' = sleeps w /\ csv_file w' = csv_file w.

(** The table grew at its end, by rows that satisfy [P]. *)
Definition extends_by (P : Pages.Row -> Prop) (w w' : World) : Prop :=
  exists added, pages w' = pages w ++ added /\ Forall P added.

Lemma quiet_refl w : quiet w w.
Proof. split; reflexivity. Qed.

Lemma quiet_trans a b c : quiet a b -> quiet b c -> quiet a c.
Proof. intros [H1 H2] [H3 H4]. split; congruence. Qed.

Lemma extends_by_refl P w : extends_by P w w.
Proof. exists []. rewrite app_nil_r. split; [reflexivity|constructor]. Qed.

Lemma extends_by_trans P a b c :
  extends_by P a b -> extends_by P b c -> extends_by P a c.
Proof.
  intros [x [Hx Px]] [y [Hy Py]]. exists (x ++ y). split.
  - rewrite Hy, Hx, <- app_assoc. reflexivity.
  - apply Forall_app. split; assumption.
Qed.

(** A relation every task of a batch keeps is kept by the batch, whether
    or not a task raises. *)
Lemma gather_preserves {A} (R : World -> World -> Prop) (tasks : list (M A)) :
  (forall w, R w w) -> (forall a b c, R a b -> R b c -> R a c) ->
  Forall (fun t => forall w, R w (snd (t w))) tasks ->
  forall w, R w (snd (gather tasks w)).
Proof.
  intros Hrefl Htrans Hall. induction Hall as [|t rest Ht Hrest IH]; intros w.
  - apply Hrefl.
  - simpl. unfold bind at 1. specialize (Ht w).
    destruct (t w) as [[e|r] w1]; simpl in *; [exact Ht|].
    unfold bind. specialize (IH w1).
    destruct (gather rest w1) as [[e|rs] w2]; simpl in *;
      eapply Htrans; eassumption.
Qed.

Section HarvestProperties.

Variable server : pystr -> exn + pystr.
Variable Selector_loc : pystr -> exn + list pystr.
Variable Selector_article : pystr -> exn + ArticlePage.

Lemma fetch_url_quiet url w :
  quiet w (snd (fetch_url server url w))
  /\ pages (snd (fetch_url server url w)) = pages w.
Proof.
  rewrite fetch_url_run. destruct (server url); repeat split; reflexivity.
Qed.

Lemma extract_links_quiet page w :
  quiet w (snd (extract_links Selector_loc page w))
  /\ pages (snd (extract_links Selector_loc page w)) = pages w.
Proof.
  rewrite extract_links_run. destruct (Selector_loc page); repeat split; reflexivity.
Qed.


(** The row a link task may add: the link itself as url, a link that was
    neither preloaded nor stored, and valid text. *)
Lemma fetch_contents_extends link existing w :
  extends_by (fun r => Pages.url r = link /\ (link ∉ existing)
                       /\ valid_text link = true)
    w (snd (fetch_contents server Selector_article link existing w))
  /\ (pages (snd (fetch_contents server Selector_article link existing w)) <> pages w ->
      link ∉ Pages.urls (pages w)).
Proof.
  destruct (fetch_contents_effect server Selector_article link existing w)
    as [w' [Hrun [_ [_ [Hsame|Hnew]]]]]; rewrite Hrun; simpl.
  - split; [|intros H; contradiction].
    exists []. rewrite app_nil_r. split; [exact Hsame|constructor].
  - destruct Hnew as (content & doc & p & a & o & Hn & _ & _ & _ & _ & Hv & Hfresh & Hp).
    split; [|intros _; exact Hfresh].
    eexists. split; [exact Hp|]. constructor; [|constructor].
    simpl. auto.
Qed.


Lemma link_phase_extends links existing w :
  extends_by (fun r => Pages.url r ∈ links /\ (Pages.url r ∉ existing)
                       /\ valid_text (Pages.url r) = true)
    w (snd (link_phase server Selector_article links existing w)).
Proof.
  unfold link_phase. apply gather_preserves.
  - apply extends_by_refl.
  - apply extends_by_trans.
  - apply Forall_map, Forall_forall. intros l Hl w0.
    destruct (fetch_contents_extends l existing w0) as [[added [Hp Hall]] _].
    exists added. split; [exact Hp|].
    eapply Forall_impl; [exact Hall|].
    intros r (-> & Hn & Hv). auto.
Qed.

(** A property of the table that every task of the batch keeps is kept by
    the link phase. *)
Lemma link_phase_invariant (I : list Pages.Row -> Prop) links existing w :
  (forall l w0, l ∈ links -> I (pages w0) ->
     I (pages (snd (fetch_contents server Selector_article l existing w0)))) ->
  I (pages w) ->
  I (pages (snd (link_phase server Selector_article links existing w))).
Proof.
  revert w. induction links as [|l rest IH]; intros w Hstep Hw; [exact Hw|].
  unfold link_phase. simpl. unfold bind at 1.
  pose proof (Hstep l w (list_elem_of_here l rest) Hw) as H1.
  destruct (fetch_contents_effect server Selector_article l existing w)
    as [w1 [Hrun _]].
  rewrite Hrun in *. simpl in H1.
  assert (IH' := IH w1 (fun l0 w0 Hl => Hstep l0 w0 (list_elem_of_further _ _ _ Hl)) H1).
  unfold link_phase in IH'. unfold bind.
  destruct (gather _ w1) as [[e|rs] w2]; exact IH'.
Qed.

(** [main], phase by phase. *)
Lemma main_phases w :
  let existing := list_to_set (Pages.urls (pages w)) : gset pystr in
  let links := flat_map (seed_links server Selector_loc) urls in
  exists w1 rs w2,
    sitemap_phase server Selector_loc urls w = (inr links, w1)
    /\ link_phase server Selector_article links existing
         (add_stdout (FoundLinks (length links)) w1) = (inr rs, w2)
    /\ main server Selector_loc Selector_article w
       = (inr tt, add_stdout (Completed (length links)) w2).
Proof.
  intros existing links.
  destruct (sitemap_phase_run server Selector_loc urls w) as [w1 [Hsm _]].
  destruct (link_phase_effect server Selector_article links existing
              (add_stdout (FoundLinks (length links)) w1)) as [rs [w2 [Hlp _]]].
  exists w1, rs, w2. split; [exact Hsm|]. split; [exact Hlp|].
  unfold main, bind, get_existing_urls, print. fold existing.
  rewrite Hsm. fold links. rewrite Hlp. reflexivity.
Qed.

Lemma sitemap_phase_quiet seeds w :
  quiet w (snd (sitemap_phase server Selector_loc seeds w)).
Proof.
  unfold sitemap_phase, bind at 1, print.
  pose proof (gather_preserves quiet (map (fetch_url server) seeds)
                quiet_refl quiet_trans) as G1.
  specialize (G1 ltac:(apply Forall_map, Forall_forall; intros u _ w0;
                        apply fetch_url_quiet) (add_stdout FetchingSitemaps w)).
  unfold bind at 1.
  destruct (gather (map (fetch_url server) seeds) (add_stdout FetchingSitemaps w))
    as [[e|ps] w1]; simpl in G1; [exact G1|].
  unfold bind at 1. simpl.
  pose proof (gather_preserves quiet
                (map (extract_links Selector_loc) (truthy_pages ps))
                quiet_refl quiet_trans) as G2.
  specialize (G2 ltac:(apply Forall_map, Forall_forall; intros u _ w0;
                        apply extract_links_quiet) (add_stdout ExtractingLinks w1)).
  unfold bind, ret.
  destruct (gather _ (add_stdout ExtractingLinks w1)) as [[e|ls] w2];
    simpl in *; eapply quiet_trans; try eassumption; split; reflexivity.
Qed.

End HarvestProperties.

(** ** The whole run *)

Section RunProperties.

Variable server : pystr -> exn + pystr.
Variable Selector_loc : pystr -> exn + list pystr.
Variable Selector_article : pystr -> exn + ArticlePage.

Abbreviation main' := (main server Selector_loc Selector_article).
Abbreviation links' := (flat_map (seed_links server Selector_loc) urls).

(** The table after [main] is the table the link phase leaves, started
    on a world that still holds the table [main] began with. *)
Lemma main_pages w :
  exists w1, pages w1 = pages w
    /\ requests w1 = requests w ++ urls
    /\ quiet w w1
    /\ main' w
       = (inr tt, add_stdout (Completed (length links'))
                    (snd (link_phase server Selector_article links'
                            (list_to_set (Pages.urls (pages w))) w1))).
Proof.
  destruct (main_phases server Selector_loc Selector_article w)
    as [w1 [rs [w2 [Hsm [Hlp Hmain]]]]].
  destruct (sitemap_phase_run server Selector_loc urls w) as [w1' [Hsm' [Hp Hr]]].
  pose proof (sitemap_phase_quiet server Selector_loc urls w) as Hq.
  rewrite Hsm in Hsm'. injection Hsm' as <-. rewrite Hsm in Hq. simpl in Hq.
  exists (add_stdout (FoundLinks (length links')) w1).
  split; [exact Hp|]. split; [exact Hr|]. split; [exact Hq|].
  rewrite Hlp. exact Hmain.
Qed.

Lemma fetch_contents_keeps_unique link existing w :
  NoDup (Pages.urls (pages w)) /\ urls_valid (pages w) ->
  NoDup (Pages.urls (pages (snd (fetch_contents server Selector_article
                                   link existing w))))
  /\ urls_valid (pages (snd (fetch_contents server Selector_article
                               link existing w))).
Proof.
  intros [Hnd Hv].
  destruct (fetch_contents_effect server Selector_article link existing w)
    as [w' [Hrun [_ [_ [Hsame|Hnew]]]]]; rewrite Hrun; simpl.
  - rewrite Hsame. auto.
  - destruct Hnew as (content & doc & p & a & o & _ & _ & _ & _ & _ & Hvl & Hfresh & Hp).
    rewrite Hp. split.
    + rewrite urls_snoc. apply NoDup_app. split; [exact Hnd|]. split.
      * intros u Hu Hu'. apply list_elem_of_singleton in Hu'. simpl in Hu'.
        subst u. exact (Hfresh Hu).
      * apply NoDup_singleton.
    + apply Forall_app. split; [exact Hv|]. constructor; [exact Hvl|constructor].
Qed.

Lemma fetch_contents_keeps_presence link existing w :
  (forall content doc, Selector_article content = inr doc -> article_valid doc) ->
  Forall field_present (pages w) ->
  Forall field_present
    (pages (snd (fetch_contents server Selector_article link existing w))).
Proof.
  intros Hparser Hinv.
  destruct (fetch_contents_effect server Selector_article link existing w)
    as [w' [Hrun [_ [_ [Hsame|Hnew]]]]]; rewrite Hrun; simpl.
  - rewrite Hsame. exact Hinv.
  - destruct Hnew as (content & doc & p & a & o & _ & _ & Hd & Hf & Hany & _ & _ & Hp).
    destruct (extract_fields_valid doc p a o (Hparser _ _ Hd) Hf) as [Vp [Va Vo]].
    rewrite Hp. apply Forall_app. split; [exact Hinv|].
    constructor; [|constructor]. apply new_row_field_present; assumption.
Qed.


(** X2. [main] only appends to the table: the rows it found are kept, in
    place and unchanged, and every row it adds has for url a link of the
    sitemaps that was not stored before and is valid text. *)
Theorem main_append_only (w : World) :
  exists added,
    pages (snd (main' w)) = pages w ++ added
    /\ Forall (fun r => Pages.url r ∈ links'
                        /\ (Pages.url r ∉ Pages.urls (pages w))
                        /\ valid_text (Pages.url r) = true) added.
Proof.
  destruct (main_pages w) as [w1 [Hp [_ [_ Hmain]]]].
  rewrite Hmain. cbn [fst snd add_stdout pages].
  destruct (link_phase_extends server Selector_article links'
              (list_to_set (Pages.urls (pages w))) w1) as [added [Ha Hall]].
  exists added. split; [rewrite Ha, Hp; reflexivity|].
  eapply Forall_impl; [exact Hall|].
  intros r (H1 & H2 & H3). rewrite elem_of_list_to_set in H2. auto.
Qed.

(** X3. A whole run keeps the urls of the table pairwise distinct (and
    valid text), duplicates among the extracted links notwithstanding. *)
Theorem main_keeps_unique_urls (w : World) :
  unique_urls (pages w) -> urls_valid (pages w) ->
  unique_urls (pages (snd (main' w))) /\ urls_valid (pages (snd (main' w))).
Proof.
  intros Hu Hv.
  destruct (main_pages w) as [w1 [Hp [_ [_ Hmain]]]].
  rewrite Hmain. cbn [fst snd add_stdout pages].
  rewrite unique_urls_NoDup.
  apply (link_phase_invariant server Selector_article
           (fun t => NoDup (Pages.urls t) /\ urls_valid t)).
  - intros l w0 _. apply fetch_contents_keeps_unique.
  - rewrite Hp. split; [apply unique_urls_NoDup, Hu|exact Hv].
Qed.

(** X4. With a page parser that returns text, a whole run keeps the
    field-presence invariant of the table. *)
Theorem main_keeps_field_presence (w : World) :
  (forall content doc, Selector_article content = inr doc -> article_valid doc) ->
  Forall field_present (pages w) ->
  Forall field_present (pages (snd (main' w))).
Proof.
  intros Hparser Hinv.
  destruct (main_pages w) as [w1 [Hp [_ [_ Hmain]]]].
  rewrite Hmain. cbn [fst snd add_stdout pages].
  apply (link_phase_invariant server Selector_article (Forall field_present)).
  - intros l w0 _. apply fetch_contents_keeps_presence, Hparser.
  - rewrite Hp. exact Hinv.
Qed.


End RunProperties.

Lemma main_keeps_unique_urls_witness :
  unique_urls (pages (snd (main Demo.server Demo.Selector_loc
                             Demo.Selector_article Demo.world1))).
Proof.
  apply (main_keeps_unique_urls Demo.server Demo.Selector_loc
           Demo.Selector_article Demo.world1).
  - intros [|[|i]] [|[|j]] r1 r2 Hi Hj Hne; try discriminate; congruence.
  - repeat constructor.
Defined.

Lemma main_keeps_field_presence_witness :
  Forall field_present
    (pages (snd (main Demo.server Demo.Selector_loc
                   Demo.Selector_article Demo.world0))).
Proof.
  apply (main_keeps_field_presence Demo.server Demo.Selector_loc
           Demo.Selector_article Demo.world0 Demo.Selector_article_valid).
  constructor.
Defined.

(** ** More on the store *)

(** X6. The retry decorator of [save_to_sqlite] never comes into play:
    the decorated function is its body run once, it neither waits nor
    fetches, and it raises exactly when the url is not valid text. *)
Theorem save_to_sqlite_attempts_once
    (url part_no adaptable_for orig_part_no : pystr) (w : World) :
  save_to_sqlite url part_no adaptable_for orig_part_no w
    = save_to_sqlite_body url part_no adaptable_for orig_part_no w
  /\ sleeps (snd (save_to_sqlite url part_no adaptable_for orig_part_no w))
     = sleeps w
  /\ requests (snd (save_to_sqlite url part_no adaptable_for orig_part_no w))
     = requests w
  /\ fst (save_to_sqlite url part_no adaptable_for orig_part_no w)
     = if valid_text url then inr tt else inl UnicodeEncodeError.
Proof.
  split; [apply save_to_sqlite_run|].
  rewrite save_to_sqlite_run, save_to_sqlite_body_run.
  destruct (valid_text url); [|auto].
  destruct (decide (url ∈ Pages.urls (pages w))); auto.
Qed.

(** X7. Insert, then load: after [save_to_sqlite] of a url that is valid
    text, [get_existing_urls] returns the previous key set with that url
    added, so a later task for the same url is skipped without a fetch;
    after a rejected insert the key set is the previous one. *)
Theorem save_then_load
    (url part_no adaptable_for orig_part_no : pystr) (w : World) :
  let w' := snd (save_to_sqlite url part_no adaptable_for orig_part_no w) in
  fst (get_existing_urls w')
    = inr (if valid_text url
           then {[url]} ∪ list_to_set (Pages.urls (pages w))
           else list_to_set (Pages.urls (pages w)))
  /\ (valid_text url = true ->
      forall server Selector_article,
        fetch_contents server Selector_article url
          (list_to_set (Pages.urls (pages w'))) w'
        = (inr tt, add_stdout (SkippingAlreadyProcessed url) w')).
Proof.
  intros w'. subst w'.
  rewrite save_to_sqlite_run, save_to_sqlite_body_run.
  unfold get_existing_urls.
  destruct (valid_text url) eqn:Hv; simpl.
  - destruct (decide (url ∈ Pages.urls (pages w))) as [Hdup|Hfresh]; simpl.
    + split.
      * f_equal. apply set_eq. intros x.
        rewrite elem_of_union, elem_of_singleton, !elem_of_list_to_set.
        split; [auto|]. intros [->|H]; assumption.
      * intros _ server Selector_article. apply fetch_contents_known.
        apply elem_of_list_to_set. exact Hdup.
    + split.
      * f_equal. apply set_eq. intros x.
        rewrite urls_snoc, elem_of_union, elem_of_singleton, !elem_of_list_to_set.
        rewrite elem_of_app, list_elem_of_singleton. simpl. tauto.
      * intros _ server Selector_article. apply fetch_contents_known.
        apply elem_of_list_to_set. rewrite urls_snoc. apply elem_of_app.
        right. simpl. left.
  - split; [reflexivity|discriminate].
Qed.

Lemma save_then_load_witness :
  fetch_contents Demo.server Demo.Selector_article Demo.link2
    (list_to_set (Pages.urls
       (pages (snd (save_to_sqlite Demo.link2 (py "P2") [] [] Demo.world1)))))
    (snd (save_to_sqlite Demo.link2 (py "P2") [] [] Demo.world1))
  = (inr tt, add_stdout (SkippingAlreadyProcessed Demo.link2)
               (snd (save_to_sqlite Demo.link2 (py "P2") [] [] Demo.world1))).
Proof.
  apply (save_then_load Demo.link2 (py "P2") [] [] Demo.world1).
  reflexivity.
Defined.

Lemma next_id_above (t : list Pages.Row) r :
  r ∈ t -> (Pages.id r < Pages.next_id t)%N.
Proof.
  unfold Pages.next_id. induction t as [|r0 t IH]; intros Hin.
  - inversion Hin.
  - simpl. apply elem_of_cons in Hin as [->|Hin]; [lia|].
    specialize (IH Hin). lia.
Qed.

(** X8. The id [save_to_sqlite] gives a new row is larger than every id
    in the table, so distinct ids stay distinct and a stored row keeps
    its id. *)
Theorem save_to_sqlite_fresh_id
    (url part_no adaptable_for orig_part_no : pystr) (w : World) :
  let w' := snd (save_to_sqlite url part_no adaptable_for orig_part_no w) in
  (pages w' = pages w
   \/ exists r, pages w' = pages w ++ [r]
        /\ forall r0, r0 ∈ pages w -> (Pages.id r0 < Pages.id r)%N)
  /\ (NoDup (map Pages.id (pages w)) -> NoDup (map Pages.id (pages w'))).
Proof.
  intros w'. subst w'.
  rewrite save_to_sqlite_run, save_to_sqlite_body_run.
  destruct (valid_text url); [|simpl; auto].
  destruct (decide (url ∈ Pages.urls (pages w))); simpl; [auto|].
  split.
  - right. eexists. split; [reflexivity|]. intros r0 Hr0. simpl.
    apply next_id_above, Hr0.
  - intros Hnd. rewrite map_app. apply NoDup_app. split; [exact Hnd|]. split.
    + intros i Hi Hi'. apply list_elem_of_singleton in Hi'. simpl in Hi'.
      apply list_elem_of_fmap in Hi as [r0 [-> Hr0]].
      pose proof (next_id_above _ _ Hr0). lia.
    + apply NoDup_singleton.
Qed.

Lemma save_to_sqlite_fresh_id_witness :
  NoDup (map Pages.id
           (pages (snd (save_to_sqlite Demo.link2 (py "P2") [] [] Demo.world1)))).
Proof.
  apply (save_to_sqlite_fresh_id Demo.link2 (py "P2") [] [] Demo.world1).
  simpl. apply NoDup_singleton.
Defined.

(** ** More on the per-link task and the phases *)

(** X9. A link that occurs twice in a batch is fetched twice and stored
    once: after the task stored it, the same task issues a second GET,
    finds the url taken, prints the duplicate line and leaves the table
    as it is. *)
Theorem duplicate_link_stored_once
    (server : pystr -> exn + pystr)
    (Selector_article : pystr -> exn + ArticlePage)
    (link : pystr) (existing_urls : gset pystr) (w : World)
    (content : pystr) (doc : ArticlePage) (p a o : pystr) :
  link ∉ existing_urls -> valid_text link = true ->
  server link = inr content -> Selector_article content = inr doc ->
  extract_fields doc = (p, a, o) -> any_field p a o = true ->
  let w1 := snd (fetch_contents server Selector_article link existing_urls w) in
  fetch_contents server Selector_article link existing_urls w1
  = (inr tt, add_stdout (SkippingDuplicateEntry link) (add_request link w1)).
Proof.
  intros Hnew Hv Hs Hd Hf Hany w1.
  destruct (fetch_contents_stores server Selector_article link existing_urls w
              content doc p a o Hnew Hv Hs Hd Hf Hany) as [Hin _].
  fold w1 in Hin.
  rewrite (fetch_contents_new server Selector_article) by exact Hnew. cbv zeta.
  rewrite Hs, Hd, Hf. cbv beta iota. rewrite Hany, Hv.
  destruct (decide (link ∈ Pages.urls (pages w1))); [reflexivity|contradiction].
Qed.

Lemma duplicate_link_stored_once_witness :
  fetch_contents Demo.server Demo.Selector_article Demo.link1 ∅
    (snd (fetch_contents Demo.server Demo.Selector_article Demo.link1 ∅ Demo.world0))
  = (inr tt,
     add_stdout (SkippingDuplicateEntry Demo.link1)
       (add_request Demo.link1
          (snd (fetch_contents Demo.server Demo.Selector_article Demo.link1 ∅
                  Demo.world0)))).
Proof.
  apply (duplicate_link_stored_once Demo.server Demo.Selector_article
           Demo.link1 ∅ Demo.world0 (py "<article 1>")
           (mkArticlePage (py " ABC-123 ")
              [(py "X", py "O1"); (py " Y", py ""); (py "", py "")])
           (py "ABC-123") (py "X, Y") (py "O1")).
  - apply not_elem_of_empty.
  - reflexivity.
  - reflexivity.
  - reflexivity.
  - reflexivity.
  - reflexivity.
Defined.



(** ** More on the string cleanup *)

Lemma lstrip_by_head p s :
  lstrip_by p s = [] \/ exists c t, lstrip_by p s = c :: t /\ p c = false.
Proof.
  induction s as [|c t IH]; simpl; [left; reflexivity|].
  destruct (p c) eqn:Hc; [exact IH|]. right. exists c, t. auto.
Qed.

Lemma lstrip_by_idem p s : lstrip_by p (lstrip_by p s) = lstrip_by p s.
Proof.
  destruct (lstrip_by_head p s) as [->|[c [t [-> Hc]]]]; [reflexivity|].
  simpl. rewrite Hc. reflexivity.
Qed.

Lemma rstrip_by_idem p s : rstrip_by p (rstrip_by p s) = rstrip_by p s.
Proof.
  unfold rstrip_by. rewrite rev_involutive, lstrip_by_idem. reflexivity.
Qed.

Lemma rstrip_by_last p s :
  rstrip_by p s = [] \/ exists m c, rstrip_by p s = m ++ [c] /\ p c = false.
Proof.
  unfold rstrip_by.
  destruct (lstrip_by_head p (rev s)) as [->|[c [t [-> Hc]]]]; [left; reflexivity|].
  right. exists (rev t), c. auto.
Qed.

Lemma strip_by_idem p s : strip_by p (strip_by p s) = strip_by p s.
Proof.
  unfold strip_by at 2 3.
  destruct (lstrip_by_head p s) as [->|[c [t [-> Hc]]]]; [reflexivity|].
  rewrite rstrip_by_cons_keep by exact Hc.
  rewrite strip_by_cons_keep by exact Hc.
  rewrite rstrip_by_idem. reflexivity.
Qed.

Lemma strip_it_idempotent_aux inp : strip_it (strip_it inp) = strip_it inp.
Proof.
  rewrite (strip_it_eq (strip_it inp)), strip_it_exit. reflexivity.
Qed.

(** X12. [strip_it] is idempotent: cleaning a cleaned string changes
    nothing, and the result is a fixed point of one loop test. *)
Theorem strip_it_idempotent (inp : pystr) :
  strip_it (strip_it inp) = strip_it inp
  /\ strip_it_loop 1 (strip_it inp) = Some (strip_it inp, 0).
Proof.
  split; [apply strip_it_idempotent_aux|].
  simpl. rewrite strip_it_exit. reflexivity.
Qed.

(** X13. A string made of commas and whitespace only, such as the join
    of empty cells, is reduced to whitespace only: no comma survives,
    though the result need not be empty. *)
Theorem strip_it_blank (inp : pystr) :
  Forall (fun c => strippable c = true) inp ->
  Forall (fun c => isspace c = true) (strip_it inp).
Proof.
  intros Hall.
  assert (Hr : Forall (fun c => strippable c = true) (strip_it inp)).
  { destruct (strip_it_slice inp) as [pre [suf [E _]]].
    rewrite E in Hall. apply Forall_app in Hall as [_ Hall].
    apply Forall_app in Hall as [Hall _]. exact Hall. }
  pose proof (strip_it_exit inp) as Hexit. unfold strip_it_cond in Hexit.
  destruct (strip_by_split isspace (strip_it inp)) as [pre [suf [E [Hpre Hsuf]]]].
  fold (strip (strip_it inp)) in E.
  destruct (rstrip_by_last isspace (lstrip_by isspace (strip_it inp)))
    as [Hnil|[m [c [Hlast Hc]]]];
    fold (strip_by isspace (strip_it inp)) in *; fold (strip (strip_it inp)) in *.
  - rewrite E, Hnil. simpl. apply Forall_app. split; assumption.
  - exfalso.
    assert (Hin : c ∈ strip_it inp).
    { rewrite E, Hlast. apply elem_of_app. right. apply elem_of_app. left.
      apply elem_of_app. right. left. }
    rewrite Forall_forall in Hr. specialize (Hr c Hin).
    unfold strippable in Hr. rewrite Hc in Hr. simpl in Hr.
    apply N.eqb_eq in Hr. subst c.
    assert (He : endswith (strip (strip_it inp)) [comma] = true).
    { apply endswith_single. exists m. exact Hlast. }
    congruence.
Qed.

Lemma strip_it_blank_witness :
  Forall (fun c => isspace c = true) (strip_it (join (py ", ") [[]; []; []]))
  /\ strip_it (join (py ", ") [[]; []; []]) = py " ".
Proof.
  split; [|reflexivity].
  apply (strip_it_blank (join (py ", ") [[]; []; []])).
  repeat constructor.
Defined.

(** X14. The extracted part number is trimmed (stripping it again changes
    nothing), and neither list column, once trimmed, ends with a comma;
    a page without compatibility rows gives two empty list columns. *)
Theorem extract_fields_trimmed (doc : ArticlePage) :
  let '(p, a, o) := extract_fields doc in
  strip p = p
  /\ endswith (strip a) [comma] = false
  /\ endswith (strip o) [comma] = false
  /\ strip_it a = a /\ strip_it o = o
  /\ (att_val_rows doc = [] -> a = [] /\ o = []).
Proof.
  unfold extract_fields.
  split; [apply strip_by_idem|].
  split; [apply strip_it_exit|]. split; [apply strip_it_exit|].
  split; [apply strip_it_idempotent_aux|]. split; [apply strip_it_idempotent_aux|].
  intros ->. split; reflexivity.
Qed.

Lemma extract_fields_trimmed_witness :
  snd (fst (extract_fields (mkArticlePage (py " P1 ") []))) = []
  /\ snd (extract_fields (mkArticlePage (py " P1 ") [])) = [].
Proof.
  exact (proj2 (proj2 (proj2 (proj2 (proj2
           (extract_fields_trimmed (mkArticlePage (py " P1 ") []))))))
           eq_refl).
Defined.


